(** * Webhook dispatch engine (package [webhooks]): model and properties

    The Go package keeps a list of endpoints built once from configuration,
    a buffered channel of delivery jobs (capacity 1000), a stop channel and a
    single worker goroutine.  Strings are byte strings, [[]byte] values are
    lists of bytes, [int] and [time.Duration] are integers, Go maps are
    finite maps, and the two channels are a FIFO buffer and a closed flag. *)

From Stdlib Require Import ZArith String Ascii List Lia Bool.
From Stdlib.Strings Require Import Byte.
From stdpp Require Import base option list gmap strings pretty.

Local Open Scope string_scope.
Local Open Scope list_scope.
Local Open Scope Z_scope.

(** ** Event taxonomy *)

Definition EventSubscriberCreated : string := "subscriber.created".
Definition EventSubscriberUpdated : string := "subscriber.updated".
Definition EventSubscriberUnsubscribed : string := "subscriber.unsubscribed".
Definition EventSubscriberConfirmed : string := "subscriber.confirmed".
Definition EventSubscriberBlocklisted : string := "subscriber.blocklisted".
Definition EventSubscriberDeleted : string := "subscriber.deleted".

Definition EventCampaignStarted : string := "campaign.started".
Definition EventCampaignFinished : string := "campaign.finished".

Definition EventLinkClick : string := "tracking.link_click".
Definition EventEmailOpen : string := "tracking.email_open".
Definition EventBounce : string := "tracking.bounce".

Definition AllEvents : list string :=
  [ EventSubscriberCreated;
    EventSubscriberUpdated;
    EventSubscriberUnsubscribed;
    EventSubscriberConfirmed;
    EventSubscriberBlocklisted;
    EventSubscriberDeleted;
    EventCampaignStarted;
    EventCampaignFinished;
    EventLinkClick;
    EventEmailOpen;
    EventBounce ].

(** ** Data model *)

(** [time.Duration] counts nanoseconds. *)
Definition Second : Z := 1000000000.

(** The payload envelope; [any] is the type of the opaque [Data] value and
    [Timestamp] the instant returned by [time.Now().UTC()]. *)
Record Payload (any : Type) := mkPayload {
  Event : string;
  Timestamp : Z;
  Data : any
}.
Arguments mkPayload {any} _ _ _.
Arguments Event {any} _.
Arguments Timestamp {any} _.
Arguments Data {any} _.

Record Opt := mkOpt {
  UUID : string;
  Name : string;
  URL : string;
  Secret : string;
  Events : list string;
  MaxConns : Z;
  Timeout : Z
}.

(** The fields of [http.Transport] and [http.Client] that [New] sets. *)
Record Transport := mkTransport {
  MaxIdleConnsPerHost : Z;
  MaxConnsPerHost : Z;
  ResponseHeaderTimeout : Z;
  IdleConnTimeout : Z
}.

Record Client := mkClient {
  client_Timeout : Z;
  client_Transport : Transport
}.

Record endpoint := mkEndpoint {
  uuid : string;
  name : string;
  url : string;
  secret : string;
  events : gmap string bool;
  client : Client
}.

(** [ep] is a pointer: endpoints are allocated by [New] only, one per
    configuration record, so the address of an endpoint is its position in
    [Manager.endpoints]. *)
Record dispatchJob := mkJob {
  ep : nat;
  payload : list byte
}.

(** [log] holds the lines printed through the manager's logger (oldest
    first), [ch] the buffer of the job channel (next job to receive first)
    and [closeCh] whether the stop channel has been closed. *)
Record Manager := mkManager {
  endpoints : list endpoint;
  log : list string;
  ch : list dispatchJob;
  closeCh : bool
}.

(** Capacity of [Manager.ch], from [make(chan dispatchJob, 1000)]. *)
Definition chCap : nat := 1000.

(** An outgoing [http.Request]: [Header.Set] stores a one-element value
    list under the key.  ([Set] first puts the key in canonical MIME form;
    the three keys the package sets are in that form as written.) *)
Record Request := mkRequest {
  Method : string;
  req_URL : string;
  Header : gmap string (list string);
  Body : list byte
}.

Definition Header_Set (k v : string) (r : Request) : Request :=
  mkRequest (Method r) (req_URL r) (<[k := [v]]> (Header r)) (Body r).

(** [Header.Get]: the first value stored under the key, or the empty string. *)
Definition Header_Get (k : string) (r : Request) : string :=
  match Header r !! k with
  | Some (v :: _) => v
  | _ => ""
  end.

(** ** Library functions the package calls

    [json.Marshal], HMAC-SHA256 and URL parsing belong to Go's standard
    library; the package is verified against any implementation of them. *)
Class GoLib (any : Type) := {
  (** [json.Marshal]: the encoding, or the text of the error. *)
  json_Marshal : Payload any -> list byte + string;
  (** [hmac.New(sha256.New, key)], [Write(msg)], [Sum(nil)]. *)
  hmac_sha256 : list byte -> list byte -> list byte;
  (** The error [http.NewRequest] reports for a URL, if any. *)
  url_Parse_error : string -> option string
}.

(** ** hex.EncodeToString *)

Definition hextable : string := "0123456789abcdef".

Definition hexdigit (n : N) : ascii :=
  match String.get (N.to_nat n) hextable with
  | Some c => c
  | None => "0"%char
  end.

(** Each byte [v] yields [hextable[v>>4]] then [hextable[v&0x0f]]. *)
Fixpoint hex_EncodeToString (src : list byte) : string :=
  match src with
  | [] => EmptyString
  | v :: rest =>
      String (hexdigit (N.shiftr (Byte.to_N v) 4))
        (String (hexdigit (N.land (Byte.to_N v) 15))
           (hex_EncodeToString rest))
  end.

Section Package.
Context {any : Type} `{L : GoLib any}.

(** ** computeHMAC *)
Definition computeHMAC (payload : list byte) (secret : string) : string :=
  hex_EncodeToString (hmac_sha256 (list_byte_of_string secret) payload).

(** ** New *)

(** The inner loop of [New]: [events[e] = true] for each listed event. *)
Definition mkEvents (es : list string) : gmap string bool :=
  fold_left (fun evs e => <[e := true]> evs) es ∅.

(** One iteration of the outer loop of [New]. *)
Definition newEndpoint (o : Opt) : endpoint :=
  let evs := mkEvents (Events o) in
  let timeout := if Timeout o =? 0 then 5 * Second else Timeout o in
  let maxConns := if MaxConns o =? 0 then 5 else MaxConns o in
  mkEndpoint (UUID o) (Name o) (URL o) (Secret o) evs
    (mkClient timeout (mkTransport maxConns maxConns timeout timeout)).

(** [New] appends one endpoint per record, in order, and starts with an
    empty job buffer and an open stop channel.  (The worker goroutine it
    starts is part of the system state below.) *)
Definition New (opts : list Opt) : Manager :=
  mkManager
    (fold_left (fun eps o => eps ++ [newEndpoint o]) opts [])
    [] [] false.

(** ** HasEndpoints *)
Definition HasEndpoints (m : Manager) : bool :=
  (0 <? length (endpoints m))%nat.

Definition logPrintf (line : string) (m : Manager) : Manager :=
  mkManager (endpoints m) (log m ++ [line]) (ch m) (closeCh m).

Definition set_ch (q : list dispatchJob) (m : Manager) : Manager :=
  mkManager (endpoints m) (log m) q (closeCh m).

(** The [events[event]] read of a Go map: [false] for a missing key. *)
Definition subscribed (e : endpoint) (event : string) : bool :=
  default false (events e !! event).

(** ** Observable effects

    What a run of the package does besides updating the manager: calls of
    [json.Marshal], the outcome of each [select] on the job channel, the
    jobs the worker receives and the requests it hands to [client.Do]. *)
Inductive effect :=
| EMarshal (p : Payload any)
| EEnqueue (event : string) (j : dispatchJob)
| EDrop (event : string) (i : nat)
| ERecv (j : dispatchJob)
| EDo (i : nat) (r : Request).

(** ** Dispatch *)

(** The body of the [for _, ep := range m.endpoints] loop, for the
    endpoint [e] stored at position [i]. *)
Definition Dispatch_visit (event : string) (b : list byte)
    (i : nat) (e : endpoint) (m : Manager) : Manager * list effect :=
  if subscribed e event then
    if (length (ch m) <? chCap)%nat then
      (set_ch (ch m ++ [mkJob i b]) m, [EEnqueue event (mkJob i b)])
    else
      (logPrintf ("webhook: dispatch queue full, dropping event "
                    +:+ event +:+ " for " +:+ name e) m,
       [EDrop event i])
  else (m, []).

(** The loop itself, run without interruption from position [i] on. *)
Fixpoint Dispatch_loop (event : string) (b : list byte)
    (i : nat) (eps : list endpoint) (m : Manager) : Manager * list effect :=
  match eps with
  | [] => (m, [])
  | e :: rest =>
      let '(m1, t1) := Dispatch_visit event b i e m in
      let '(m2, t2) := Dispatch_loop event b (S i) rest m1 in
      (m2, t1 ++ t2)
  end.

(** The part of [Dispatch] before the loop: the early return, the payload
    and its serialization.  The result is the serialized bytes when the
    loop is to be run. *)
Definition Dispatch_enter (event : string) (data : any) (now : Z)
    (m : Manager) : Manager * list effect * option (list byte) :=
  if (length (endpoints m) =? 0)%nat then (m, [], None)
  else
    let p := mkPayload event now data in
    match json_Marshal p with
    | inr err =>
        (logPrintf ("webhook: error marshalling payload: " +:+ err) m,
         [EMarshal p], None)
    | inl b => (m, [EMarshal p], Some b)
    end.

(** [Dispatch] run to completion; [now] is the value of [time.Now().UTC()]. *)
Definition Dispatch (event : string) (data : any) (now : Z)
    (m : Manager) : Manager * list effect :=
  match Dispatch_enter event data now m with
  | (m1, t1, None) => (m1, t1)
  | (m1, t1, Some b) =>
      let '(m2, t2) := Dispatch_loop event b 0 (endpoints m1) m1 in
      (m2, t1 ++ t2)
  end.

(** ** send *)

Definition http_NewRequest (method url : string) (body : list byte)
    : Request + string :=
  match url_Parse_error url with
  | Some err => inr err
  | None => inl (mkRequest method url ∅ body)
  end.

(** The request [send] builds before calling [client.Do]. *)
Definition buildRequest (e : endpoint) (payload : list byte)
    : Request + string :=
  match http_NewRequest "POST" (url e) payload with
  | inr err => inr err
  | inl req =>
      let req := Header_Set "Content-Type" "application/json" req in
      let req := Header_Set "User-Agent" "listmonk" req in
      inl (if String.eqb (secret e) "" then req
           else Header_Set "X-Webhook-Signature"
                  ("sha256=" +:+ computeHMAC payload (secret e)) req)
  end.

(** [reply] is what [client.Do] returns: a status code or an error. *)
Definition send (i : nat) (e : endpoint) (payload : list byte)
    (reply : Z + string) (m : Manager) : Manager * list effect :=
  match buildRequest e payload with
  | inr err =>
      (logPrintf ("webhook: error creating request for "
                    +:+ name e +:+ ": " +:+ err) m, [])
  | inl req =>
      match reply with
      | inr err =>
          (logPrintf ("webhook: error sending to "
                        +:+ name e +:+ ": " +:+ err) m, [EDo i req])
      | inl status =>
          (if 400 <=? status then
             logPrintf ("webhook: non-OK response from "
                          +:+ name e +:+ ": " +:+ pretty status) m
           else m,
           [EDo i req])
      end
  end.

(** ** Close *)

(** Closing a closed channel panics. *)
Definition Close (m : Manager) : option Manager :=
  if closeCh m then None
  else Some (mkManager (endpoints m) (log m) (ch m) true).

(** ** The running system

    Goroutines interleave at channel operations.  A [frame] is a call of
    [Dispatch] that has serialized its payload and is about to visit
    position [f_next] of [m.endpoints]. *)
Record frame := mkFrame {
  f_event : string;
  f_payload : list byte;
  f_next : nat
}.

Record System := mkSystem {
  mgr : Manager;
  worker_running : bool;
  callers : list frame;
  crashed : bool
}.

Inductive action :=
| ACall (event : string) (data : any) (now : Z)
| AVisit (k : nat)
| AWorkerRecv (reply : Z + string)
| AWorkerStop
| AClose.

(** One step of caller number [k]: an iteration of its loop, or its return
    once the range is exhausted. *)
Definition step_visit (k : nat) (s : System) : option (System * list effect) :=
  match callers s !! k with
  | None => None
  | Some f =>
      match endpoints (mgr s) !! f_next f with
      | None =>
          Some (mkSystem (mgr s) (worker_running s) (delete k (callers s))
                  (crashed s), [])
      | Some e =>
          let '(m1, t) :=
            Dispatch_visit (f_event f) (f_payload f) (f_next f) e (mgr s) in
          Some (mkSystem m1 (worker_running s)
                  (<[k := mkFrame (f_event f) (f_payload f) (S (f_next f))]>
                     (callers s))
                  (crashed s), t)
      end
  end.

(** The [case job := <-m.ch] branch of the worker, [send] included. *)
Definition step_recv (reply : Z + string) (s : System)
    : option (System * list effect) :=
  if worker_running s then
    match ch (mgr s) with
    | [] => None
    | j :: q =>
        match endpoints (mgr s) !! ep j with
        | None => None
        | Some e =>
            let '(m1, t) := send (ep j) e (payload j) reply (set_ch q (mgr s)) in
            Some (mkSystem m1 (worker_running s) (callers s) (crashed s),
                  ERecv j :: t)
        end
    end
  else None.

Definition step (a : action) (s : System) : option (System * list effect) :=
  if crashed s then None
  else
    match a with
    | ACall event data now =>
        match Dispatch_enter event data now (mgr s) with
        | (m1, t, None) =>
            Some (mkSystem m1 (worker_running s) (callers s) (crashed s), t)
        | (m1, t, Some b) =>
            Some (mkSystem m1 (worker_running s)
                    (callers s ++ [mkFrame event b 0]) (crashed s), t)
        end
    | AVisit k => step_visit k s
    | AWorkerRecv reply => step_recv reply s
    | AWorkerStop =>
        if worker_running s && closeCh (mgr s) then
          Some (mkSystem (mgr s) false (callers s) (crashed s), [])
        else None
    | AClose =>
        match Close (mgr s) with
        | Some m1 =>
            Some (mkSystem m1 (worker_running s) (callers s) (crashed s), [])
        | None => Some (mkSystem (mgr s) (worker_running s) (callers s) true, [])
        end
    end.

(** A schedule run from [s]: the final state and everything observed. *)
Fixpoint run (sched : list action) (s : System) : option (System * list effect) :=
  match sched with
  | [] => Some (s, [])
  | a :: rest =>
      match step a s with
      | None => None
      | Some (s1, t1) =>
          match run rest s1 with
          | None => None
          | Some (s2, t2) => Some (s2, t1 ++ t2)
          end
      end
  end.

(** The system right after [New(opts, lo)] has returned. *)
Definition boot (opts : list Opt) : System :=
  mkSystem (New opts) true [] false.

(** ** Reading a list of effects *)

(** The jobs placed on the channel, in order. *)
Definition enqueued (t : list effect) : list dispatchJob :=
  omap (fun x => match x with EEnqueue _ j => Some j | _ => None end) t.

(** The jobs the worker took from the channel, in order. *)
Definition received (t : list effect) : list dispatchJob :=
  omap (fun x => match x with ERecv j => Some j | _ => None end) t.

(** The requests handed to [client.Do], with the endpoint whose client
    ran them, in order. *)
Definition wire (t : list effect) : list (nat * Request) :=
  omap (fun x => match x with EDo i r => Some (i, r) | _ => None end) t.

(** The payloads passed to [json.Marshal], in order. *)
Definition marshalled (t : list effect) : list (Payload any) :=
  omap (fun x => match x with EMarshal p => Some p | _ => None end) t.

(** The endpoints for which a [select] on the channel was run, in order,
    whichever branch was taken. *)
Definition attempted (t : list effect) : list nat :=
  omap (fun x => match x with
                 | EEnqueue _ j => Some (ep j)
                 | EDrop _ i => Some i
                 | _ => None
                 end) t.

(** The endpoints whose job was dropped, in order. *)
Definition dropped (t : list effect) : list nat :=
  omap (fun x => match x with EDrop _ i => Some i | _ => None end) t.

(** The positions, counted from [i], of the endpoints of [eps] subscribed
    to [event]. *)
Fixpoint matching (event : string) (i : nat) (eps : list endpoint) : list nat :=
  match eps with
  | [] => []
  | e :: rest =>
      if subscribed e event then i :: matching event (S i) rest
      else matching event (S i) rest
  end.

(** The request [send] puts on the wire for a job, if it gets that far. *)
Definition requestOf (eps : list endpoint) (j : dispatchJob)
    : option (nat * Request) :=
  match eps !! ep j with
  | None => None
  | Some e =>
      match buildRequest e (payload j) with
      | inl r => Some (ep j, r)
      | inr _ => None
      end
  end.

(** The line logged when a job is dropped. *)
Definition dropLine (event nm : string) : string :=
  "webhook: dispatch queue full, dropping event " +:+ event +:+ " for " +:+ nm.

(** ** What holds of every state reached from [boot opts]

    [s] is the state and [tr] everything observed on the way to it. *)
Record Inv (opts : list Opt) (s : System) (tr : list effect) : Prop := {
  inv_endpoints : endpoints (mgr s) = map newEndpoint opts;
  inv_cap : (length (ch (mgr s)) <= chCap)%nat;
  inv_fifo : enqueued tr = received tr ++ ch (mgr s);
  inv_wire : wire tr = omap (requestOf (endpoints (mgr s))) (received tr);
  inv_frames :
    Forall (fun f => exists p, p ∈ marshalled tr /\ Event p = f_event f /\
                               json_Marshal p = inl (f_payload f))
           (callers s);
  inv_enq : forall ev j,
    EEnqueue ev j ∈ tr ->
    (exists o, opts !! ep j = Some o /\ ev ∈ Events o) /\
    (exists p, p ∈ marshalled tr /\ Event p = ev /\
               json_Marshal p = inl (payload j));
  inv_drop : forall ev i,
    EDrop ev i ∈ tr ->
    exists o, opts !! i = Some o /\ ev ∈ Events o /\
              dropLine ev (Name o) ∈ log (mgr s)
}.

End Package.

(** ** A small instance, for running the model on concrete inputs

    [Data] is a boolean telling whether the value can be encoded; the
    encoding, the keyed digest and the URL check are stand-ins. *)
Module Demo.
Definition marshal (p : Payload bool) : list byte + string :=
  if Data p then
    inl (list_byte_of_string (Event p +:+ "@" +:+ pretty (Timestamp p)))
  else inr "json: unsupported type: chan int".

Definition mac (key msg : list byte) : list byte := key ++ msg.

Definition parse_error (u : string) : option string :=
  match u with
  | String ":" _ => Some "missing protocol scheme"
  | _ => None
  end.

#[global] Instance lib : GoLib bool :=
  {| json_Marshal := marshal; hmac_sha256 := mac; url_Parse_error := parse_error |}.

Definition hook (nm sec : string) (evs : list string) : Opt :=
  mkOpt "" nm ("http://" +:+ nm) sec evs 0 0.

(** Two endpoints: one signs and lists its event twice, one does not sign. *)
Definition opts : list Opt :=
  [ hook "crm" "my-secret-key" [EventSubscriberCreated; EventSubscriberCreated];
    hook "audit" "" [EventSubscriberCreated; EventCampaignStarted] ].

(** One emit, both endpoints visited, both jobs delivered. *)
Definition sched : list (@action bool) :=
  [ ACall EventSubscriberCreated true 7; AVisit 0; AVisit 0;
    AWorkerRecv (inl 200); AVisit 0; AWorkerRecv (inl 500) ].

(** Where a schedule leads from [boot opts], and what is observed. *)
Definition final_of (sc : list (@action bool)) : System :=
  from_option fst (boot opts) (run sc (boot opts)).

Definition trace_of (sc : list (@action bool)) : list (@effect bool) :=
  from_option snd [] (run sc (boot opts)).

(** The first request made in a run of a schedule. *)
Definition first_request (sc : list (@action bool)) : Request :=
  from_option snd (mkRequest "" "" ∅ []) (wire (trace_of sc) !! 0%nat).

(** Five hundred emits run one after the other while the worker is idle:
    with two subscribed endpoints they fill the channel. *)
Definition burst : list (@action bool) :=
  concat (replicate 500
            [ ACall EventSubscriberCreated true 7; AVisit 0; AVisit 0; AVisit 0 ]).

(** An endpoint configured, outside the admin UI, with an event name of
    its own. *)
Definition custom : list Opt := [ hook "lab" "" ["custom.event"] ].
End Demo.

(** ** A decoder for lowercase hexadecimal, to state what the encoder yields *)

Fixpoint index_of (c : ascii) (s : string) : option N :=
  match s with
  | EmptyString => None
  | String d rest =>
      if Ascii.eqb c d then Some 0%N else N.succ <$> index_of c rest
  end.

(** The value of a digit of [hextable]; no other character has one. *)
Definition hex_value (c : ascii) : option N := index_of c hextable.

(** Two lowercase digits per byte, high nibble first; anything else, an
    uppercase digit included, is rejected. *)
Fixpoint hex_decode_lower (s : string) : option (list N) :=
  match s with
  | EmptyString => Some []
  | String hi (String lo rest) =>
      match hex_value hi, hex_value lo, hex_decode_lower rest with
      | Some h, Some l, Some bs => Some ((16 * h + l)%N :: bs)
      | _, _, _ => None
      end
  | String _ EmptyString => None
  end.

(** * The mock receiver ([dev/webhook-receiver/main.go])

    Each handler runs its access to [Server.events] under the server's
    lock, so a handler is a function of the server value; what it prints
    through the global logger is returned as a list of lines. *)

(** The characters that cannot be written inside a string literal here. *)
Definition dq : string := String (ascii_of_nat 34) EmptyString.
Definition nl : string := String (ascii_of_nat 10) EmptyString.

(** [strings.HasPrefix] and [strings.TrimPrefix], through the rest of the
    string after the prefix when there is one. *)
Fixpoint strip_prefix (prefix s : string) : option string :=
  match prefix, s with
  | EmptyString, _ => Some s
  | String a prefix', String b s' =>
      if Ascii.eqb a b then strip_prefix prefix' s' else None
  | String _ _, EmptyString => None
  end.

Definition strings_HasPrefix (s prefix : string) : bool :=
  match strip_prefix prefix s with Some _ => true | None => false end.

Definition strings_TrimPrefix (s prefix : string) : string :=
  match strip_prefix prefix s with Some rest => rest | None => s end.

(** [hmac.Equal]: equal lengths and equal bytes. *)
Fixpoint hmac_Equal (a b : list byte) : bool :=
  match a, b with
  | [], [] => true
  | x :: a', y :: b' => Byte.eqb x y && hmac_Equal a' b'
  | _, _ => false
  end.

Module Receiver.

Record WebhookEvent (any : Type) := mkWebhookEvent {
  Event : string;
  Timestamp : Z;
  Data : any;
  ReceivedAt : Z;
  SignatureValid : bool
}.
Arguments mkWebhookEvent {any} _ _ _ _ _.
Arguments Event {any} _.
Arguments Timestamp {any} _.
Arguments Data {any} _.
Arguments ReceivedAt {any} _.
Arguments SignatureValid {any} _.

Record Server (any : Type) := mkServer {
  secret : string;
  events : list (WebhookEvent any)
}.
Arguments mkServer {any} _ _.
Arguments secret {any} _.
Arguments events {any} _.

(** What a handler writes: the status code and the body. *)
Record Response := mkResponse {
  code : Z;
  body : string
}.

(** The library functions the receiver calls besides HMAC-SHA256. *)
Class RecvLib (any : Type) := {
  (** [json.Unmarshal] into a zero [WebhookEvent], or the error text. *)
  json_Unmarshal : list byte -> WebhookEvent any + string;
  (** [Time.Format(time.RFC3339)]. *)
  time_Format : Z -> string;
  (** The [%v] rendering of a value. *)
  fmt_v : any -> string;
  (** [json.MarshalIndent(event, "  ", "  ")]. *)
  json_MarshalIndent : WebhookEvent any -> string
}.

Section Handlers.
Context {any : Type} `{L : GoLib any} `{R : RecvLib any}.

Definition computeHMAC (payload : list byte) (secret : string) : string :=
  hex_EncodeToString (hmac_sha256 (list_byte_of_string secret) payload).

Definition verifySignature (s : Server any) (payload : list byte)
    (signature : string) : bool :=
  if negb (strings_HasPrefix signature "sha256=") then false
  else
    let sig := strings_TrimPrefix signature "sha256=" in
    let expected := computeHMAC payload (secret s) in
    hmac_Equal (list_byte_of_string sig) (list_byte_of_string expected).

(** [http.Error]: the message and a newline, under the given code. *)
Definition http_Error (msg : string) (c : Z) : Response :=
  mkResponse c (msg +:+ nl).

(** [method] is [r.Method], [sig] the value of
    [r.Header.Get("X-Webhook-Signature")], [read] the result of
    [io.ReadAll(r.Body)] and [now] that of [time.Now()]. *)
Definition handleWebhook (method sig : string) (read : list byte + string)
    (now : Z) (s : Server any) : Server any * Response * list string :=
  if negb (String.eqb method "POST") then
    (s, http_Error "Method not allowed" 405, [])
  else
    match read with
    | inr err =>
        (s, http_Error "Error reading body" 400,
         ["Error reading body: " +:+ err])
    | inl bd =>
        let '(signatureValid, l1) :=
          if negb (String.eqb (secret s) "") then
            if verifySignature s bd sig then (true, ["signature: valid"])
            else (false,
                  ["signature: INVALID (expected sha256="
                     +:+ computeHMAC bd (secret s) +:+ ", got " +:+ sig +:+ ")"])
          else (true, []) in
        match json_Unmarshal bd with
        | inr err =>
            (s, http_Error "Invalid JSON" 400,
             l1 ++ ["Error parsing JSON: " +:+ err])
        | inl parsed =>
            let event :=
              mkWebhookEvent (Event parsed) (Timestamp parsed) (Data parsed)
                now signatureValid in
            (mkServer (secret s) (events s ++ [event]),
             mkResponse 200
               ("{" +:+ dq +:+ "status" +:+ dq +:+ ": " +:+ dq +:+ "received"
                  +:+ dq +:+ ", " +:+ dq +:+ "event" +:+ dq +:+ ": " +:+ dq
                  +:+ Event event +:+ dq +:+ "}"),
             l1 ++ ["Received event: " +:+ Event event;
                    "  Timestamp: " +:+ time_Format (Timestamp event);
                    "  Data: " +:+ fmt_v (Data event);
                    "  Full payload:" +:+ nl +:+ "  "
                      +:+ json_MarshalIndent event])
        end
    end.

(** The loop of [handleEvents] that collects the events of one type,
    appending to a slice that starts out [nil] ([None]). *)
Fixpoint collect (eventType : string) (evs : list (WebhookEvent any))
    (filtered : option (list (WebhookEvent any)))
    : option (list (WebhookEvent any)) :=
  match evs with
  | [] => filtered
  | e :: rest =>
      collect eventType rest
        (if String.eqb (Event e) eventType then
           Some (default [] filtered ++ [e])
         else filtered)
  end.

(** [handleEvents]: the value it encodes, the count and the slice, which
    is [None] when it is a [nil] slice.  [eventType] is
    [r.URL.Query().Get("event")]. *)
Definition handleEvents (eventType : string) (s : Server any)
    : nat * option (list (WebhookEvent any)) :=
  let filtered :=
    if negb (String.eqb eventType "") then collect eventType (events s) None
    else Some (events s) in
  (length (default [] filtered), filtered).

Definition handleClear (method : string) (s : Server any)
    : Server any * Response * list string :=
  if negb (String.eqb method "POST") && negb (String.eqb method "DELETE") then
    (s, http_Error "Method not allowed" 405, [])
  else
    (mkServer (secret s) [],
     mkResponse 200
       ("{" +:+ dq +:+ "status" +:+ dq +:+ ": " +:+ dq +:+ "cleared" +:+ dq
          +:+ "}"),
     ["Events cleared"]).

Definition handleHealth (s : Server any) : Response :=
  mkResponse 200
    ("{" +:+ dq +:+ "status" +:+ dq +:+ ": " +:+ dq +:+ "healthy" +:+ dq
       +:+ ", " +:+ dq +:+ "events_received" +:+ dq +:+ ": "
       +:+ pretty (Z.of_nat (length (events s))) +:+ "}").

(** A request of the dispatcher arriving at [/webhook], its body read in
    full. *)
Definition deliver (r : Request) (now : Z) (s : Server any)
    : Server any * Response * list string :=
  handleWebhook (Method r) (Header_Get "X-Webhook-Signature" r)
    (inl (Body r)) now s.

(** Requests handled one after the other; the responses, in order. *)
Fixpoint serve (reqs : list (string * string * (list byte + string) * Z))
    (s : Server any) : Server any * list Response :=
  match reqs with
  | [] => (s, [])
  | (method, sig, read, now) :: rest =>
      let '(s1, resp, _) := handleWebhook method sig read now s in
      let '(s2, resps) := serve rest s1 in
      (s2, resp :: resps)
  end.

End Handlers.

(** A stand-in decoder for the stand-in encoding of [Demo]: the event name
    up to the [@]; a body without [@] does not parse. *)
Fixpoint before_at (s : string) : option string :=
  match s with
  | EmptyString => None
  | String c rest =>
      if Ascii.eqb c "@" then Some EmptyString
      else String c <$> before_at rest
  end.

Definition demo_Unmarshal (b : list byte) : WebhookEvent bool + string :=
  match before_at (string_of_list_byte b) with
  | Some ev => inl (mkWebhookEvent ev 0 true 0 false)
  | None => inr "invalid character"
  end.

#[global] Instance demo_lib : RecvLib bool :=
  {| json_Unmarshal := demo_Unmarshal;
     time_Format := pretty;
     fmt_v := fun b : bool => if b then "true" else "false";
     json_MarshalIndent := fun e => Event e |}.

End Receiver.

(** * The autoresponder trigger

    [makeAutoresponderHook] with the three [core] functions it calls and the
    SQL they run.  The database is the part those queries read and write;
    [faults] decides the outcome of each call that can fail (a query, or
    [manager.SendAutoresponder]): calls take the outcomes in order, [Some]
    being the error, and succeed once the list is used up. *)
Module Autoresponder.

(** The columns of [campaigns] the queries and the hook read. *)
Record Campaign := mkCampaign {
  ID : Z;
  Name : string;
  Type' : string;
  Status : string;
  ARTriggerOnConfirm : bool
}.

Record Subscriber := mkSubscriber {
  sub_ID : Z;
  sub_Status : string
}.

(** [echo.HTTPError], as [echo.NewHTTPError(code, message)] builds it. *)
Record HTTPError := mkHTTPError {
  Code : Z;
  Message : string
}.

Inductive error :=
| HTTP (e : HTTPError)
| Err (msg : string).

(** What the trigger takes from other packages: the status constant of
    [models], the translations and the text of an [echo.HTTPError]. *)
Class ARLib := {
  SubscriberStatusEnabled : string;
  i18n_Ts : string -> string -> string -> string;
  HTTPError_Error : HTTPError -> string
}.

(** [campaign_lists] holds the rows (campaign_id, list_id); [history] is
    the table [autoresponder_history], whose rows are unique; [clog] is the
    log of [core], [lo] that of [main]; [sends] lists the calls of
    [SendAutoresponder] with their outcome. *)
Record World := mkWorld {
  campaigns : list Campaign;
  campaign_lists : list (Z * Z);
  history : gset (Z * Z * Z);
  faults : list (option string);
  clog : list string;
  lo : list string;
  sends : list (Campaign * Subscriber * option string)
}.

Definition set_history (h : gset (Z * Z * Z)) (w : World) : World :=
  mkWorld (campaigns w) (campaign_lists w) h (faults w) (clog w) (lo w)
    (sends w).

Definition clog_Printf (line : string) (w : World) : World :=
  mkWorld (campaigns w) (campaign_lists w) (history w) (faults w)
    (clog w ++ [line]) (lo w) (sends w).

Definition lo_Printf (line : string) (w : World) : World :=
  mkWorld (campaigns w) (campaign_lists w) (history w) (faults w) (clog w)
    (lo w ++ [line]) (sends w).

(** The outcome of the next call that can fail. *)
Definition outcome (w : World) : option string * World :=
  match faults w with
  | [] => (None, w)
  | f :: rest =>
      (f, mkWorld (campaigns w) (campaign_lists w) (history w) rest (clog w)
            (lo w) (sends w))
  end.

Section Trigger.
Context `{A : ARLib}.

Definition error_text (e : error) : string :=
  match e with
  | HTTP he => HTTPError_Error he
  | Err msg => msg
  end.

(** [get-autoresponders-for-list]: one row per campaign and per row of
    [campaign_lists] joined to it, kept when the campaign is a running
    autoresponder and the row is of the given list. *)
Definition get_autoresponders_for_list (listID : Z) (w : World)
    : list Campaign :=
  flat_map
    (fun c =>
       flat_map
         (fun cl : Z * Z =>
            if (fst cl =? ID c) && String.eqb (Type' c) "autoresponder"
               && String.eqb (Status c) "running" && (snd cl =? listID)
            then [c] else [])
         (campaign_lists w))
    (campaigns w).

(** [check-autoresponder-sent]. *)
Definition check_autoresponder_sent (campaignID subscriberID listID : Z)
    (w : World) : bool :=
  bool_decide ((campaignID, subscriberID, listID) ∈ history w).

(** [record-autoresponder-sent]: [ON CONFLICT ... DO NOTHING]. *)
Definition record_autoresponder_sent (campaignID subscriberID listID : Z)
    (w : World) : World :=
  set_history ({[ (campaignID, subscriberID, listID) ]} ∪ history w) w.

Definition GetAutorespondersForList (listID : Z) (w : World)
    : list Campaign * option error * World :=
  match outcome w with
  | (Some err, w1) =>
      ([],
       Some (HTTP (mkHTTPError 500
                     (i18n_Ts "globals.messages.errorFetching" "name"
                        "autoresponders"))),
       clog_Printf ("error fetching autoresponders for list "
                      +:+ pretty listID +:+ ": " +:+ err) w1)
  | (None, w1) => (get_autoresponders_for_list listID w1, None, w1)
  end.

Definition HasReceivedAutoresponder (campaignID subscriberID listID : Z)
    (w : World) : bool * option error * World :=
  match outcome w with
  | (Some err, w1) =>
      (false,
       Some (HTTP (mkHTTPError 500
                     (i18n_Ts "globals.messages.errorFetching" "name"
                        "autoresponder"))),
       clog_Printf ("error checking autoresponder sent status: " +:+ err) w1)
  | (None, w1) =>
      (check_autoresponder_sent campaignID subscriberID listID w1, None, w1)
  end.

Definition RecordAutoresponderSent (campaignID subscriberID listID : Z)
    (w : World) : option error * World :=
  match outcome w with
  | (Some err, w1) =>
      (Some (HTTP (mkHTTPError 500
                     (i18n_Ts "globals.messages.errorUpdating" "name"
                        "autoresponder"))),
       clog_Printf ("error recording autoresponder sent: " +:+ err) w1)
  | (None, w1) =>
      (None, record_autoresponder_sent campaignID subscriberID listID w1)
  end.

(** [manager.SendAutoresponder]: the call is noted with its outcome. *)
Definition SendAutoresponder (camp : Campaign) (sub : Subscriber) (w : World)
    : option error * World :=
  let '(f, w1) := outcome w in
  (Err <$> f,
   mkWorld (campaigns w1) (campaign_lists w1) (history w1) (faults w1)
     (clog w1) (lo w1) (sends w1 ++ [(camp, sub, f)])).

(** The body of the inner loop of the hook, for one campaign. *)
Definition hook_campaign (sub : Subscriber) (listID : Z)
    (isConfirmation : bool) (w : World) (camp : Campaign) : World :=
  if negb (Bool.eqb (ARTriggerOnConfirm camp) isConfirmation) then w
  else
    match HasReceivedAutoresponder (ID camp) (sub_ID sub) listID w with
    | (_, Some err, w1) =>
        lo_Printf ("error checking autoresponder status: "
                     +:+ error_text err) w1
    | (true, None, w1) => w1
    | (false, None, w1) =>
        match SendAutoresponder camp sub w1 with
        | (Some err, w2) =>
            lo_Printf ("error sending autoresponder '" +:+ Name camp
                         +:+ "' to subscriber " +:+ pretty (sub_ID sub)
                         +:+ ": " +:+ error_text err) w2
        | (None, w2) =>
            match RecordAutoresponderSent (ID camp) (sub_ID sub) listID w2 with
            | (Some err, w3) =>
                lo_Printf ("error recording autoresponder sent: "
                             +:+ error_text err) w3
            | (None, w3) => w3
            end
        end
    end.

(** The body of the outer loop, for one list. *)
Definition hook_list (sub : Subscriber) (isConfirmation : bool)
    (w : World) (listID : Z) : World :=
  match GetAutorespondersForList listID w with
  | (_, Some err, w1) =>
      lo_Printf ("error fetching autoresponders for list "
                   +:+ pretty listID +:+ ": " +:+ error_text err) w1
  | (camps, None, w1) =>
      fold_left (hook_campaign sub listID isConfirmation) camps w1
  end.

(** The callback [makeAutoresponderHook] returns; the error it returns is
    [None] for [nil]. *)
Definition hook (sub : Subscriber) (listIDs : list Z) (isConfirmation : bool)
    (w : World) : option error * World :=
  if negb (String.eqb (sub_Status sub) SubscriberStatusEnabled) then (None, w)
  else (None, fold_left (hook_list sub isConfirmation) listIDs w).

(** How a run of the hook for subscriber [sub], over lists among [ls], may
    change the world: the campaign tables are left alone, [history] only
    grows, and [sends] only grows, by calls for [sub]; every call is for a
    running autoresponder of one of the lists, with the trigger asked for
    and not yet in [history] for that list; every new row of [history]
    belongs to a call that succeeded. *)
Definition advances (sub : Subscriber) (isConfirmation : bool) (ls : list Z)
    (w w' : World) : Prop :=
  campaigns w' = campaigns w /\
  campaign_lists w' = campaign_lists w /\
  history w ⊆ history w' /\
  exists new,
    sends w' = sends w ++ new /\
    (forall c s r,
        (c, s, r) ∈ new ->
        s = sub /\ ARTriggerOnConfirm c = isConfirmation /\
        c ∈ campaigns w /\ Type' c = "autoresponder" /\
        Status c = "running" /\
        exists l, l ∈ ls /\ (ID c, l) ∈ campaign_lists w /\
                  (ID c, sub_ID sub, l) ∉ history w) /\
    (forall t,
        t ∈ history w' ->
        t ∈ history w \/
        exists c l, t = (ID c, sub_ID sub, l) /\ l ∈ ls /\
                    (c, sub, None) ∈ new).

End Trigger.

#[global] Instance demo_lib : ARLib :=
  {| SubscriberStatusEnabled := "enabled";
     i18n_Ts := fun key _ v => key +:+ " " +:+ v;
     HTTPError_Error := fun e => "code=" +:+ pretty (Code e) +:+ ", message="
                                   +:+ Message e |}.

(** Two running autoresponders on list 1, one sent on subscription and one
    on confirmation, and a draft; campaign 10 is also on list 2. *)
Definition demo_world (fs : list (option string)) : World :=
  mkWorld
    [ mkCampaign 10 "welcome" "autoresponder" "running" false;
      mkCampaign 11 "confirmed" "autoresponder" "running" true;
      mkCampaign 12 "draft" "autoresponder" "draft" false ]
    [ (10, 1); (11, 1); (12, 1); (10, 2) ]
    ∅ fs [] [] [].

Definition demo_sub : Subscriber := mkSubscriber 7 "enabled".

End Autoresponder.

(** * Properties *)

(** ** Construction *)

Lemma New_endpoints (opts : list Opt) :
  endpoints (New opts) = map newEndpoint opts.
Proof.
  unfold New; simpl.
  enough (G : forall acc,
             fold_left (fun eps o => eps ++ [newEndpoint o]) opts acc
             = acc ++ map newEndpoint opts) by apply (G []).
  induction opts as [|o opts IH]; intros acc; simpl.
  - now rewrite app_nil_r.
  - rewrite IH, <- app_assoc. reflexivity.
Qed.

Lemma New_lookup (opts : list Opt) (i : nat) :
  endpoints (New opts) !! i = newEndpoint <$> opts !! i.
Proof. rewrite New_endpoints. apply list_lookup_fmap. Qed.

Lemma mkEvents_lookup (es : list string) (e : string) :
  mkEvents es !! e = if decide (e ∈ es) then Some true else None.
Proof.
  unfold mkEvents.
  enough (G : forall acc : gmap string bool,
             fold_left (fun evs x => <[x := true]> evs) es acc !! e
             = if decide (e ∈ es) then Some true else acc !! e)
    by (rewrite G, lookup_empty; reflexivity).
  induction es as [|x es IH]; intros acc; simpl.
  - destruct (decide (e ∈ [])) as [H|H]; [inversion H | reflexivity].
  - rewrite IH.
    destruct (decide (e ∈ es)) as [Hin|Hin].
    + rewrite decide_True by (right; exact Hin). reflexivity.
    + destruct (decide (e = x)) as [->|Hne].
      * rewrite decide_True by left. apply lookup_insert_eq.
      * rewrite decide_False.
        -- apply lookup_insert_ne. congruence.
        -- intros H. apply elem_of_cons in H. tauto.
Qed.

Lemma subscribed_newEndpoint (o : Opt) (event : string) :
  subscribed (newEndpoint o) event = bool_decide (event ∈ Events o).
Proof.
  unfold subscribed, newEndpoint; simpl. rewrite mkEvents_lookup.
  destruct (decide (event ∈ Events o)) as [H|H].
  - now rewrite bool_decide_eq_true_2.
  - now rewrite bool_decide_eq_false_2.
Qed.

(** C8. Each configuration record yields, at the same position, an endpoint
    whose client has the configured timeout, or 5 s (5 000 000 000 ns) when
    that is zero, as request timeout and as idle-connection lifetime, and the
    configured max-connections, or 5 when that is zero, as both the idle and
    the open connection limits per host. *)
Theorem New_client_settings (opts : list Opt) :
  Forall2
    (fun o e =>
       let T := if Timeout o =? 0 then 5000000000 else Timeout o in
       let N := if MaxConns o =? 0 then 5 else MaxConns o in
       client_Timeout (client e) = T /\
       MaxIdleConnsPerHost (client_Transport (client e)) = N /\
       MaxConnsPerHost (client_Transport (client e)) = N /\
       IdleConnTimeout (client_Transport (client e)) = T)
    opts (endpoints (New opts)).
Proof.
  rewrite New_endpoints.
  induction opts as [|o opts IH]; simpl; constructor; [|exact IH].
  unfold newEndpoint, Second; simpl. repeat split; reflexivity.
Qed.

Example New_defaults_example :
  client <$> endpoints (New [mkOpt "u" "n" "http://h" "" [] 0 0;
                             mkOpt "u" "n" "http://h" "" [] 8 250000000])
  = [mkClient 5000000000 (mkTransport 5 5 5000000000 5000000000);
     mkClient 250000000 (mkTransport 8 8 250000000 250000000)].
Proof. reflexivity. Qed.

(** ** One step at a time *)

Section Steps.
Context {any : Type} `{L : GoLib any}.

Lemma Dispatch_visit_cases (event : string) (b : list byte) (i : nat)
    (e : endpoint) (m : Manager) :
  (subscribed e event = false /\ Dispatch_visit (any := any) event b i e m = (m, []))
  \/ (subscribed e event = true /\ (length (ch m) < chCap)%nat /\
      Dispatch_visit (any := any) event b i e m
      = (set_ch (ch m ++ [mkJob i b]) m, [EEnqueue event (mkJob i b)]))
  \/ (subscribed e event = true /\ (chCap <= length (ch m))%nat /\
      Dispatch_visit (any := any) event b i e m
      = (logPrintf (dropLine event (name e)) m, [EDrop event i])).
Proof.
  unfold Dispatch_visit.
  destruct (subscribed e event); [right|left; split; reflexivity].
  destruct (Nat.ltb_spec (length (ch m)) chCap); [left|right]; repeat split; auto.
Qed.

Lemma send_effects (i : nat) (e : endpoint) (pl : list byte)
    (reply : Z + string) (m : Manager) :
  exists lines,
    send i e pl reply m
    = (mkManager (endpoints m) (log m ++ lines) (ch m) (closeCh m),
       match buildRequest e pl with inl r => [EDo i r] | inr _ => [] end).
Proof.
  unfold send. destruct (buildRequest e pl) as [r|err].
  - destruct reply as [status|err].
    + destruct (400 <=? status).
      * eexists [_]. reflexivity.
      * exists []. rewrite app_nil_r. destruct m; reflexivity.
    + eexists [_]. reflexivity.
  - eexists [_]. reflexivity.
Qed.

Lemma Inv_boot (opts : list Opt) : Inv opts (boot opts) [].
Proof.
  split; simpl; try reflexivity.
  - apply New_endpoints.
  - unfold chCap. lia.
  - constructor.
  - intros ev j H. inversion H.
  - intros ev i H. inversion H.
Qed.

Lemma enqueued_app (t1 t2 : list (@effect any)) :
  enqueued (t1 ++ t2) = enqueued t1 ++ enqueued t2.
Proof. apply omap_app. Qed.

Lemma received_app (t1 t2 : list (@effect any)) :
  received (t1 ++ t2) = received t1 ++ received t2.
Proof. apply omap_app. Qed.

Lemma wire_app (t1 t2 : list (@effect any)) :
  wire (t1 ++ t2) = wire t1 ++ wire t2.
Proof. apply omap_app. Qed.

Lemma marshalled_app (t1 t2 : list (@effect any)) :
  marshalled (t1 ++ t2) = marshalled t1 ++ marshalled t2.
Proof. apply omap_app. Qed.

Lemma attempted_app (t1 t2 : list (@effect any)) :
  attempted (t1 ++ t2) = attempted t1 ++ attempted t2.
Proof. apply omap_app. Qed.

(** What a step has to establish locally for the invariant to carry over. *)
Lemma Inv_extend (opts : list Opt) (s s' : System) (tr t' : list effect) :
  Inv opts s tr ->
  endpoints (mgr s') = endpoints (mgr s) ->
  (exists lines, log (mgr s') = log (mgr s) ++ lines) ->
  (length (ch (mgr s')) <= chCap)%nat ->
  ch (mgr s) ++ enqueued t' = received t' ++ ch (mgr s') ->
  wire t' = omap (requestOf (endpoints (mgr s))) (received t') ->
  Forall (fun f => exists p, p ∈ marshalled (tr ++ t') /\ Event p = f_event f /\
                             json_Marshal p = inl (f_payload f))
         (callers s') ->
  (forall ev j, EEnqueue ev j ∈ t' ->
     (exists o, opts !! ep j = Some o /\ ev ∈ Events o) /\
     (exists p, p ∈ marshalled (tr ++ t') /\ Event p = ev /\
                json_Marshal p = inl (payload j))) ->
  (forall ev i, EDrop ev i ∈ t' ->
     exists o, opts !! i = Some o /\ ev ∈ Events o /\
               dropLine ev (Name o) ∈ log (mgr s')) ->
  Inv opts s' (tr ++ t').
Proof.
  intros [Ie Ic If Iw Ifr Ienq Idr] He [lines Hl] Hc Hf Hw Hfr Henq Hdr.
  split.
  - now rewrite He.
  - exact Hc.
  - rewrite enqueued_app, received_app, If, <- !app_assoc. now f_equal.
  - rewrite wire_app, received_app, omap_app, He, Iw, Hw. reflexivity.
  - exact Hfr.
  - intros ev j H. apply elem_of_app in H as [H|H]; [|now apply Henq].
    destruct (Ienq ev j H) as [Ho (p & Hp & Hev & Hm)]. split; [exact Ho|].
    exists p. rewrite marshalled_app, elem_of_app. auto.
  - intros ev i H. apply elem_of_app in H as [H|H]; [|now apply Hdr].
    destruct (Idr ev i H) as (o & Ho & Hev & Hin). exists o.
    rewrite Hl, elem_of_app. auto.
Qed.

Lemma frames_mono (tr t' : list effect) (fs : list frame) :
  Forall (fun f => exists p, p ∈ marshalled tr /\ Event p = f_event f /\
                             json_Marshal p = inl (f_payload f)) fs ->
  Forall (fun f => exists p, p ∈ marshalled (tr ++ t') /\ Event p = f_event f /\
                             json_Marshal p = inl (f_payload f)) fs.
Proof.
  intros HF. eapply Forall_impl; [exact HF|].
  intros f (p & Hp & H). exists p. split; [|exact H].
  rewrite marshalled_app, elem_of_app. auto.
Qed.

Lemma step_Inv (opts : list Opt) (a : action) (s s' : System)
    (tr t' : list effect) :
  Inv opts s tr -> step a s = Some (s', t') -> Inv opts s' (tr ++ t').
Proof.
  intros I Hs. unfold step in Hs.
  destruct (crashed s) eqn:Hcr; [discriminate|].
  destruct a as [event data now|k|reply| |].
  - (* a goroutine enters Dispatch *)
    unfold Dispatch_enter in Hs.
    destruct (length (endpoints (mgr s)) =? 0)%nat.
    + inversion Hs; subst; clear Hs.
      apply (Inv_extend opts s); simpl; auto.
      * exists []. now rewrite app_nil_r.
      * apply I.
      * now rewrite app_nil_r.
      * apply frames_mono, I.
      * intros ev j H; inversion H.
      * intros ev j H; inversion H.
    + destruct (json_Marshal (mkPayload event now data)) as [b|err] eqn:Hm;
        inversion Hs; subst; clear Hs.
      * apply (Inv_extend opts s); simpl; auto.
        -- exists []. now rewrite app_nil_r.
        -- apply I.
        -- now rewrite app_nil_r.
        -- apply Forall_app. split; [apply frames_mono, I|].
           constructor; [|constructor].
           exists (mkPayload event now data). simpl.
           rewrite marshalled_app, elem_of_app. split; [right; left|auto].
        -- intros ev j H; apply list_elem_of_singleton in H; discriminate.
        -- intros ev j H; apply list_elem_of_singleton in H; discriminate.
      * apply (Inv_extend opts s); simpl; auto.
        -- eexists. reflexivity.
        -- apply I.
        -- now rewrite app_nil_r.
        -- apply frames_mono, I.
        -- intros ev j H; apply list_elem_of_singleton in H; discriminate.
        -- intros ev j H; apply list_elem_of_singleton in H; discriminate.
  - (* a caller runs one iteration, or returns *)
    unfold step_visit in Hs.
    destruct (callers s !! k) as [f|] eqn:Hf; [|discriminate].
    assert (Hfr : exists p, p ∈ marshalled tr /\ Event p = f_event f /\
                            json_Marshal p = inl (f_payload f)).
    { apply (proj1 (Forall_lookup _ _) (inv_frames _ _ _ I) k f Hf). }
    destruct (endpoints (mgr s) !! f_next f) as [e|] eqn:He.
    + assert (Ho : exists o, opts !! f_next f = Some o /\ e = newEndpoint o).
      { rewrite (inv_endpoints _ _ _ I), list_lookup_fmap in He.
        destruct (opts !! f_next f) as [o|]; [|discriminate].
        exists o. split; [reflexivity|]. now inversion He. }
      destruct Ho as (o & Ho & ->).
      destruct (Dispatch_visit_cases (f_event f) (f_payload f) (f_next f)
                  (newEndpoint o) (mgr s)) as [[Hsub Hv]|[(Hsub & Hlen & Hv)|(Hsub & Hlen & Hv)]];
        rewrite Hv in Hs; inversion Hs; subst; clear Hs Hv;
        rewrite subscribed_newEndpoint in Hsub.
      * apply (Inv_extend opts s); simpl; auto.
        -- exists []. now rewrite app_nil_r.
        -- apply I.
        -- now rewrite app_nil_r.
        -- apply Forall_insert; [apply frames_mono, I|].
           destruct Hfr as (p & Hp & H). exists p. split; [|exact H].
           rewrite marshalled_app, elem_of_app. auto.
        -- intros ev j H; inversion H.
        -- intros ev j H; inversion H.
      * apply bool_decide_eq_true_1 in Hsub.
        apply (Inv_extend opts s); simpl; auto.
        -- exists []. now rewrite app_nil_r.
        -- rewrite length_app; simpl. lia.
        -- apply Forall_insert; [apply frames_mono, I|].
           destruct Hfr as (p & Hp & H). exists p. split; [|exact H].
           rewrite marshalled_app, elem_of_app. auto.
        -- intros ev j H; apply list_elem_of_singleton in H.
           inversion H; subst; simpl. split; [eauto|].
           destruct Hfr as (p & Hp & H1). exists p. split; [|exact H1].
           rewrite marshalled_app, elem_of_app. auto.
        -- intros ev j H; apply list_elem_of_singleton in H; discriminate.
      * apply bool_decide_eq_true_1 in Hsub.
        apply (Inv_extend opts s); simpl; auto.
        -- eexists. reflexivity.
        -- apply I.
        -- now rewrite app_nil_r.
        -- apply Forall_insert; [apply frames_mono, I|].
           destruct Hfr as (p & Hp & H). exists p. split; [|exact H].
           rewrite marshalled_app, elem_of_app. auto.
        -- intros ev j H; apply list_elem_of_singleton in H; discriminate.
        -- intros ev j H; apply list_elem_of_singleton in H.
           inversion H; subst. exists o. repeat split; auto.
           apply elem_of_app. right. now left.
    + inversion Hs; subst; clear Hs.
      apply (Inv_extend opts s); simpl; auto.
      * exists []. now rewrite app_nil_r.
      * apply I.
      * now rewrite app_nil_r.
      * apply Forall_delete, frames_mono, I.
      * intros ev j H; inversion H.
      * intros ev j H; inversion H.
  - (* the worker receives a job and sends it *)
    unfold step_recv in Hs.
    destruct (worker_running s); [|discriminate].
    destruct (ch (mgr s)) as [|j q] eqn:Hch; [discriminate|].
    destruct (endpoints (mgr s) !! ep j) as [e|] eqn:He; [|discriminate].
    destruct (send_effects (ep j) e (payload j) reply (set_ch q (mgr s)))
      as [lines Hsend].
    rewrite Hsend in Hs. simpl in Hs. inversion Hs; subst; clear Hs Hsend.
    assert (Hobs : forall t : list (@effect any),
               t = match buildRequest e (payload j) with
                   | inl r => [EDo (ep j) r] | inr _ => [] end ->
               enqueued t = [] /\ received t = [] /\ marshalled t = [] /\
               wire t = match requestOf (endpoints (mgr s)) j with
                        | Some x => [x] | None => [] end /\
               (forall ev j', EEnqueue ev j' ∉ t) /\
               (forall ev i, EDrop ev i ∉ t)).
    { intros t ->. unfold requestOf. rewrite He.
      destruct (buildRequest e (payload j)); simpl; repeat split;
        intros ? ? H; try inversion H; subst;
        match goal with H : _ ∈ [] |- _ => inversion H end. }
    destruct (Hobs _ eq_refl) as (He1 & He2 & He3 & He4 & He5 & He6).
    apply (Inv_extend opts s); simpl; auto.
    + eexists. reflexivity.
    + pose proof (inv_cap _ _ _ I) as Hc. rewrite Hch in Hc. simpl in Hc. lia.
    + rewrite Hch, He1, He2, app_nil_r. reflexivity.
    + rewrite He2, He4. simpl.
      destruct (requestOf (endpoints (mgr s)) j); reflexivity.
    + apply frames_mono, I.
    + intros ev j' H. apply elem_of_cons in H as [H|H]; [discriminate|].
      now apply He5 in H.
    + intros ev i H. apply elem_of_cons in H as [H|H]; [discriminate|].
      now apply He6 in H.
  - (* the worker takes the stop case *)
    destruct (worker_running s && closeCh (mgr s)); [|discriminate].
    inversion Hs; subst; clear Hs.
    apply (Inv_extend opts s); simpl; auto.
    + exists []. now rewrite app_nil_r.
    + apply I.
    + now rewrite app_nil_r.
    + apply frames_mono, I.
    + intros ev j H; inversion H.
    + intros ev j H; inversion H.
  - (* Close *)
    unfold Close in Hs.
    destruct (closeCh (mgr s)); inversion Hs; subst; clear Hs;
      apply (Inv_extend opts s); simpl; auto;
      try (exists []; now rewrite app_nil_r);
      try apply I; try (now rewrite app_nil_r);
      try (apply frames_mono, I);
      try (intros ev j H; inversion H).
Qed.

Lemma run_Inv_from (opts : list Opt) (sched : list action) (s0 s : System)
    (t0 tr : list effect) :
  Inv opts s0 t0 -> run sched s0 = Some (s, tr) -> Inv opts s (t0 ++ tr).
Proof.
  revert s0 t0 tr.
  induction sched as [|a sched IH]; intros s0 t0 tr I Hr; simpl in Hr.
  - inversion Hr; subst. now rewrite app_nil_r.
  - destruct (step a s0) as [[s1 t1]|] eqn:Hs; [|discriminate].
    destruct (run sched s1) as [[s2 t2]|] eqn:Hr2; [|discriminate].
    inversion Hr; subst; clear Hr.
    rewrite app_assoc. apply (IH s1); [|exact Hr2].
    now apply (step_Inv opts a s0).
Qed.

Lemma run_Inv (opts : list Opt) (sched : list action) (s : System)
    (tr : list effect) :
  run sched (boot opts) = Some (s, tr) -> Inv opts s tr.
Proof. intros H. apply (run_Inv_from opts sched (boot opts) s [] tr (Inv_boot opts) H). Qed.

End Steps.

(** ** Signing *)

Lemma hex_byte (v : byte) :
  hex_value (hexdigit (N.shiftr (Byte.to_N v) 4)) = Some (N.shiftr (Byte.to_N v) 4)
  /\ hex_value (hexdigit (N.land (Byte.to_N v) 15)) = Some (N.land (Byte.to_N v) 15)
  /\ (16 * N.shiftr (Byte.to_N v) 4 + N.land (Byte.to_N v) 15)%N = Byte.to_N v.
Proof. destruct v; vm_compute; repeat split. Qed.

(** The encoder writes two lowercase digits per byte. *)
Lemma hex_EncodeToString_lower (src : list byte) :
  hex_decode_lower (hex_EncodeToString src) = Some (map Byte.to_N src).
Proof.
  induction src as [|v src IH]; [reflexivity|].
  cbn [hex_EncodeToString hex_decode_lower map].
  destruct (hex_byte v) as (-> & -> & E). now rewrite IH, E.
Qed.

Section Signing.
Context {any : Type} `{L : GoLib any}.

Lemma buildRequest_inl (e : endpoint) (pl : list byte) (r : Request) :
  buildRequest e pl = inl r ->
  Method r = "POST" /\ req_URL r = url e /\ Body r = pl /\
  Header r !! "Content-Type" = Some ["application/json"] /\
  Header r !! "User-Agent" = Some ["listmonk"] /\
  Header r !! "X-Webhook-Signature"
  = if decide (secret e = "") then None
    else Some ["sha256=" +:+ hex_EncodeToString
                 (hmac_sha256 (list_byte_of_string (secret e)) pl)].
Proof.
  unfold buildRequest, http_NewRequest.
  destruct (url_Parse_error (url e)); [discriminate|].
  intros H; inversion H; subst; clear H.
  destruct (String.eqb_spec (secret e) "") as [E|E].
  - rewrite decide_True by exact E. simpl. repeat split; reflexivity.
  - rewrite decide_False by exact E. simpl. repeat split; reflexivity.
Qed.

End Signing.

(** C1. In every run, a request handed to an endpoint's client was built for
    a job the worker received for that endpoint; its body is that job's
    payload, which is the output of a [json.Marshal] call; when the
    endpoint's secret is not empty its [X-Webhook-Signature] header is
    ["sha256="] followed by the lowercase hexadecimal encoding of the
    HMAC-SHA256 of that body keyed by the secret, and when the secret is
    empty the header is absent. *)
Theorem signature_header {any : Type} `{L : GoLib any}
    (opts : list Opt) (sched : list action) (s : System)
    (tr : list effect) (i : nat) (r : Request) :
  run sched (boot opts) = Some (s, tr) ->
  (i, r) ∈ wire tr ->
  exists o j p,
    opts !! i = Some o /\ j ∈ received tr /\ ep j = i /\ payload j = Body r /\
    p ∈ marshalled tr /\ json_Marshal p = inl (Body r) /\
    let mac := hmac_sha256 (list_byte_of_string (Secret o)) (Body r) in
    Header r !! "X-Webhook-Signature"
    = (if decide (Secret o = "") then None
       else Some ["sha256=" +:+ hex_EncodeToString mac]) /\
    hex_decode_lower (hex_EncodeToString mac) = Some (map Byte.to_N mac).
Proof.
  intros Hrun Hin. pose proof (run_Inv opts sched s tr Hrun) as I.
  rewrite (inv_wire _ _ _ I) in Hin.
  apply list_elem_of_omap in Hin as (j & Hj & Hreq).
  unfold requestOf in Hreq.
  destruct (endpoints (mgr s) !! ep j) as [e|] eqn:He; [|discriminate].
  destruct (buildRequest e (payload j)) as [r'|] eqn:Hb; [|discriminate].
  inversion Hreq; subst; clear Hreq.
  rewrite (inv_endpoints _ _ _ I), list_lookup_fmap in He.
  destruct (opts !! ep j) as [o|] eqn:Ho; [|discriminate].
  inversion He; subst; clear He.
  destruct (buildRequest_inl _ _ _ Hb) as (_ & _ & Hbody & _ & _ & Hsig).
  assert (Henq : j ∈ enqueued tr).
  { rewrite (inv_fifo _ _ _ I), elem_of_app. now left. }
  apply list_elem_of_omap in Henq as (x & Hx & Hxj).
  destruct x as [| ev j' | | |]; try discriminate. inversion Hxj; subst j'.
  destruct (inv_enq _ _ _ I ev j Hx) as [_ (p & Hp & _ & Hm)].
  exists o, j, p. rewrite Hbody. repeat split; auto.
  apply hex_EncodeToString_lower.
Qed.

Lemma signature_header_witness :
  Header (Demo.first_request Demo.sched) !! "X-Webhook-Signature"
  = Some ["sha256=" +:+ hex_EncodeToString
            (Demo.mac (list_byte_of_string "my-secret-key")
               (Body (Demo.first_request Demo.sched)))].
Proof.
  assert (Hrun : run Demo.sched (boot Demo.opts)
                 = Some (Demo.final_of Demo.sched, Demo.trace_of Demo.sched))
    by (vm_compute; reflexivity).
  assert (Hin : (0%nat, Demo.first_request Demo.sched)
                  ∈ wire (Demo.trace_of Demo.sched)).
  { apply (list_elem_of_lookup_2 _ 0%nat). vm_compute; reflexivity. }
  destruct (signature_header (L := Demo.lib) _ _ _ _ _ _ Hrun Hin)
    as (o & j & p & Ho & _ & _ & _ & _ & _ & Hsig & _).
  vm_compute in Ho. injection Ho as <-. exact Hsig.
Defined.

(** ** An emit run to completion *)

Section Emit.
Context {any : Type} `{L : GoLib any}.

Lemma dropped_app (t1 t2 : list (@effect any)) :
  dropped (t1 ++ t2) = dropped t1 ++ dropped t2.
Proof. apply omap_app. Qed.

Lemma Dispatch_loop_spec (event : string) (b : list byte) (eps : list endpoint) :
  forall (i : nat) (m m' : Manager) (t : list effect),
    Dispatch_loop (any := any) event b i eps m = (m', t) ->
    endpoints m' = endpoints m /\ closeCh m' = closeCh m /\
    ch m' = ch m ++ enqueued t /\
    attempted t = matching event i eps /\
    Forall (fun j => payload j = b) (enqueued t) /\
    marshalled t = [] /\ received t = [] /\ wire t = [] /\
    ((length (ch m) + length eps <= chCap)%nat -> dropped t = []) /\
    ((length (ch m) <= chCap)%nat -> (length (ch m') <= chCap)%nat).
Proof.
  induction eps as [|e eps IH]; intros i m m' t H; cbn [Dispatch_loop] in H.
  - inversion H; subst. rewrite app_nil_r. repeat split; auto.
  - destruct (Dispatch_visit event b i e m) as [m1 t1] eqn:Hv.
    destruct (Dispatch_loop event b (S i) eps m1) as [m2 t2] eqn:Hl.
    inversion H; subst; clear H.
    destruct (IH _ _ _ _ Hl) as (E1 & E2 & E3 & E4 & E5 & E6 & E7 & E8 & E9 & E10).
    rewrite E3 in E10.
    rewrite enqueued_app, attempted_app, marshalled_app, received_app,
      wire_app, dropped_app, E1, E2, E3, E4, E6, E7, E8.
    cbn [matching length].
    destruct (Dispatch_visit_cases (any := any) event b i e m)
      as [[Hsub Hc]|[(Hsub & Hlen & Hc)|(Hsub & Hlen & Hc)]];
      rewrite Hc in Hv; inversion Hv; subst; clear Hv Hc; rewrite Hsub;
      cbn [enqueued attempted marshalled received wire dropped omap
           set_ch logPrintf ch endpoints closeCh ep option_bind mbind
           list_omap app] in *.
    + repeat split; auto. intros Hr. apply E9. lia.
    + rewrite <- app_assoc. repeat split; auto.
      * intros Hr. apply E9. rewrite length_app. simpl. lia.
      * intros Hr. rewrite app_assoc. apply E10. rewrite length_app. simpl. lia.
    + repeat split; auto. intros Hr. lia.
Qed.

(** *** An emit run without interruption is one behaviour of the system *)

Lemma run_app (l1 l2 : list action) (s : System) :
  run (l1 ++ l2) s
  = match run l1 s with
    | Some (s1, t1) =>
        match run l2 s1 with
        | Some (s2, t2) => Some (s2, t1 ++ t2)
        | None => None
        end
    | None => None
    end.
Proof.
  revert s. induction l1 as [|a l1 IH]; intros s; simpl.
  - destruct (run l2 s) as [[s2 t2]|]; reflexivity.
  - destruct (step a s) as [[s1 t1]|]; [|reflexivity].
    rewrite IH. destruct (run l1 s1) as [[s2 t2]|]; [|reflexivity].
    destruct (run l2 s2) as [[s3 t3]|]; [|reflexivity].
    now rewrite app_assoc.
Qed.

Lemma visits_as_loop (event : string) (b : list byte) (k : nat)
    (eps : list endpoint) :
  forall (i : nat) (s : System) (m' : Manager) (t : list effect),
    crashed s = false ->
    callers s !! k = Some (mkFrame event b i) ->
    drop i (endpoints (mgr s)) = eps ->
    Dispatch_loop event b i eps (mgr s) = (m', t) ->
    run (replicate (length eps) (AVisit k)) s
    = Some (mkSystem m' (worker_running s)
              (<[k := mkFrame event b (i + length eps)]> (callers s)) false,
            t).
Proof.
  induction eps as [|e eps IH]; intros i s m' t Hcr Hf Hd Hl;
    cbn [Dispatch_loop length replicate run] in *.
  - inversion Hl; subst. rewrite Nat.add_0_r, (list_insert_id _ _ _ Hf).
    destruct s; simpl in *; now subst.
  - assert (He : endpoints (mgr s) !! i = Some e).
    { pose proof (lookup_drop (endpoints (mgr s)) i 0) as Hld.
      rewrite Hd, Nat.add_0_r in Hld. now rewrite <- Hld. }
    destruct (Dispatch_visit event b i e (mgr s)) as [m1 t1] eqn:Hv.
    destruct (Dispatch_loop event b (S i) eps m1) as [m2 t2] eqn:Hl2.
    inversion Hl; subst; clear Hl.
    assert (Hm1 : endpoints m1 = endpoints (mgr s)).
    { destruct (Dispatch_visit_cases (any := any) event b i e (mgr s))
        as [[_ Hc]|[(_ & _ & Hc)|(_ & _ & Hc)]];
        rewrite Hc in Hv; inversion Hv; reflexivity. }
    unfold step. rewrite Hcr. unfold step_visit. rewrite Hf.
    cbn [f_event f_payload f_next]. rewrite He, Hv.
    rewrite (IH (S i) _ m' t2); cbn [crashed mgr callers worker_running].
    + rewrite list_insert_insert_eq.
      replace (S i + length eps)%nat with (i + S (length eps))%nat by lia.
      reflexivity.
    + exact Hcr.
    + apply list_lookup_insert_eq. now apply lookup_lt_Some in Hf.
    + rewrite Hm1. rewrite (drop_S _ _ _ He) in Hd. now inversion Hd.
    + exact Hl2.
Qed.

(** What [Dispatch] computes is what the system does when a caller enters
    and runs all its steps in a row. *)
Lemma Dispatch_is_a_run (event : string) (data : any) (now : Z)
    (s : System) (m' : Manager) (t : list effect) :
  crashed s = false ->
  Dispatch event data now (mgr s) = (m', t) ->
  exists n,
    run (ACall event data now :: replicate n (AVisit (length (callers s)))) s
    = Some (mkSystem m' (worker_running s) (callers s) false, t).
Proof.
  intros Hcr H. unfold Dispatch in H.
  destruct (Dispatch_enter event data now (mgr s)) as [[m1 t1] [b|]] eqn:Hen.
  - assert (Hm1 : m1 = mgr s).
    { unfold Dispatch_enter in Hen.
      destruct (length (endpoints (mgr s)) =? 0)%nat; [discriminate|].
      destruct (json_Marshal _); inversion Hen; reflexivity. }
    subst m1.
    destruct (Dispatch_loop event b 0 (endpoints (mgr s)) (mgr s))
      as [m2 t2] eqn:Hl.
    inversion H; subst; clear H.
    exists (S (length (endpoints (mgr s)))).
    rewrite replicate_S_end, app_comm_cons, run_app.
    cbn [run]. unfold step at 1. rewrite Hcr, Hen.
    set (s1 := mkSystem (mgr s) (worker_running s)
                 (callers s ++ [mkFrame event b 0]) false).
    pose proof (visits_as_loop event b (length (callers s))
                  (endpoints (mgr s)) 0 s1 m' t2 eq_refl
                  (list_lookup_middle _ _ _ _ eq_refl) eq_refl Hl) as Hv.
    rewrite Hv. subst s1. cbn [worker_running callers Nat.add mgr crashed].
    assert (Hins : forall f0 f1 : frame,
               <[length (callers s) := f1]> (callers s ++ [f0])
               = callers s ++ [f1]).
    { intros f0 f1.
      rewrite <- (Nat.add_0_r (length (callers s))) at 1.
      now rewrite insert_app_r. }
    rewrite Hins. unfold step. cbn [crashed]. unfold step_visit.
    cbn [callers mgr]. rewrite list_lookup_middle by reflexivity.
    cbn [f_next f_event f_payload].
    destruct (Dispatch_loop_spec _ _ _ _ _ _ _ Hl) as (E1 & _).
    rewrite E1, (lookup_ge_None_2 _ _ (le_n _)).
    cbn [worker_running crashed]. rewrite delete_middle, !app_nil_r.
    reflexivity.
  - inversion H; subst; clear H. exists 0%nat.
    cbn [replicate run]. unfold step. rewrite Hcr, Hen, app_nil_r.
    reflexivity.
Qed.

(** When the payload can be marshalled, an emit is the marshalling followed
    by the loop over all the endpoints. *)
Lemma Dispatch_marshal_ok (event : string) (data : any) (now : Z)
    (b : list byte) (m m' : Manager) (t : list effect) :
  endpoints m <> [] ->
  json_Marshal (mkPayload event now data) = inl b ->
  Dispatch event data now m = (m', t) ->
  exists t2, t = EMarshal (mkPayload event now data) :: t2 /\
             Dispatch_loop event b 0 (endpoints m) m = (m', t2).
Proof.
  intros Hne Hm H. unfold Dispatch, Dispatch_enter in H.
  destruct (endpoints m) as [|e0 eps] eqn:He; [congruence|].
  cbn [length Nat.eqb] in H. rewrite Hm, He in H.
  destruct (Dispatch_loop event b 0 (e0 :: eps) m) as [m2 t2] eqn:Hl.
  inversion H; subst; clear H. exists t2. split; reflexivity.
Qed.

(** Every attempt is an enqueue or a drop. *)
Lemma attempted_split (t : list (@effect any)) (i : nat) :
  length (filter (fun k => k = i) (attempted t))
  = (length (filter (fun j => ep j = i) (enqueued t))
     + length (filter (fun k => k = i) (dropped t)))%nat.
Proof.
  induction t as [|x t IH]; [reflexivity|].
  destruct x as [p|ev j|ev k|j|k r]; simpl; auto.
  - rewrite !filter_cons. destruct (decide (ep j = i)); simpl; lia.
  - rewrite !filter_cons. destruct (decide (k = i)); simpl; lia.
Qed.

Lemma matching_count (event : string) (eps : list endpoint) :
  forall (i0 i : nat) (e : endpoint),
    eps !! i = Some e ->
    length (filter (fun k => k = (i0 + i)%nat) (matching event i0 eps))
    = if subscribed e event then 1%nat else 0%nat.
Proof.
  assert (Hlow : forall eps' i0 k, k ∈ matching event i0 eps' -> (i0 <= k)%nat).
  { induction eps' as [|e' eps' IH]; intros i0 k Hk; simpl in Hk.
    - inversion Hk.
    - destruct (subscribed e' event).
      + apply elem_of_cons in Hk as [->|Hk]; [lia|]. apply IH in Hk. lia.
      + apply IH in Hk. lia. }
  induction eps as [|e' eps IH]; intros i0 i e Hi; [discriminate|].
  destruct i as [|i]; simpl in Hi.
  - inversion Hi; subst e'. cbn [matching]. rewrite Nat.add_0_r.
    assert (Hnone : filter (fun k => k = i0) (matching event (S i0) eps) = []).
    { assert (G : forall l : list nat,
                 (forall k, k ∈ l -> k <> i0) -> filter (fun k => k = i0) l = []).
      { induction l as [|k l IHl]; intros Hl; [reflexivity|].
        rewrite filter_cons_False by (apply Hl; left).
        apply IHl. intros k' Hk'. apply Hl. now right. }
      apply G. intros k Hk ->. apply Hlow in Hk. lia. }
    destruct (subscribed e event).
    + rewrite filter_cons_True by reflexivity. now rewrite Hnone.
    + now rewrite Hnone.
  - cbn [matching]. replace (i0 + S i)%nat with (S i0 + i)%nat by lia.
    destruct (subscribed e' event).
    + rewrite filter_cons_False by lia. now apply IH.
    + now apply IH.
Qed.

End Emit.

(** ** Introspection and the empty configuration *)

(** C7. [HasEndpoints] is false exactly for the empty configuration and true
    for every other one; on a manager without endpoints [Dispatch] returns
    the manager as it was and has no effect at all: no payload is
    marshalled, nothing is logged or enqueued, no request is made, and no
    loop is left to run. *)
Theorem no_endpoints_noop {any : Type} `{L : GoLib any}
    (opts : list Opt) (s : System) (event : string) (data : any) (now : Z) :
  (HasEndpoints (New opts) = false <-> opts = []) /\
  (HasEndpoints (New opts) = true <-> opts <> []) /\
  (endpoints (mgr s) = [] ->
   HasEndpoints (mgr s) = false /\
   Dispatch event data now (mgr s) = (mgr s, []) /\
   (crashed s = false -> step (ACall event data now) s = Some (s, []))).
Proof.
  unfold HasEndpoints. rewrite New_endpoints.
  split; [|split].
  - destruct opts; cbn; split; intros H; congruence.
  - destruct opts; cbn; split; intros H; congruence.
  - intros He. unfold step, Dispatch, Dispatch_enter. rewrite He. simpl.
    repeat split. intros Hc. destruct s as [m w c cr]; simpl in *.
    subst cr. reflexivity.
Qed.

Lemma no_endpoints_noop_witness :
  HasEndpoints (New []) = false /\
  Dispatch EventSubscriberCreated true 7 (New []) = (New [], []) /\
  step (ACall EventSubscriberCreated true 7) (boot []) = Some (boot [], []).
Proof.
  destruct (no_endpoints_noop [] (boot []) EventSubscriberCreated true 7)
    as (_ & _ & H).
  destruct (H eq_refl) as (H1 & H2 & H3).
  split; [exact H1|]. split; [exact H2|]. apply H3. reflexivity.
Defined.

(** ** Close *)

(** C5 fails on the code: [Close] closes the stop channel without any
    guard, so the first call succeeds and the second one closes a closed
    channel, which panics and takes the process down. *)
Theorem Close_twice_panics {any : Type} `{L : GoLib any} (opts : list Opt) :
  exists m1,
    Close (New opts) = Some m1 /\ closeCh m1 = true /\ Close m1 = None /\
    exists s, run [AClose; AClose] (boot opts) = Some (s, []) /\
              crashed s = true.
Proof.
  eexists. split; [reflexivity|]. split; [reflexivity|]. split; [reflexivity|].
  eexists. split; reflexivity.
Qed.

(** ** Filtering *)

(** C3. In every run, a job is put on the channel for an endpoint only by an
    emit of an event for which the endpoint's subscription test
    [events[event]] is true; so an endpoint not subscribed to an event gets
    no job from an emit of it, every job the worker delivers to the endpoint
    was enqueued for an event it is subscribed to, and so was every request
    made with its client. *)
Theorem unsubscribed_no_job {any : Type} `{L : GoLib any}
    (opts : list Opt) (sched : list action) (s : System) (tr : list effect)
    (i : nat) (e : endpoint) :
  run sched (boot opts) = Some (s, tr) ->
  endpoints (mgr s) !! i = Some e ->
  (forall event j, subscribed e event = false ->
                   EEnqueue event j ∈ tr -> ep j <> i) /\
  (forall event j, EEnqueue event j ∈ tr -> ep j = i ->
                   subscribed e event = true) /\
  (forall j, j ∈ received tr -> ep j = i ->
             exists event, subscribed e event = true /\ EEnqueue event j ∈ tr) /\
  (forall r, (i, r) ∈ wire tr ->
             exists event j, subscribed e event = true /\
                             EEnqueue event j ∈ tr /\ ep j = i /\
                             Body r = payload j).
Proof.
  intros Hrun He. pose proof (run_Inv opts sched s tr Hrun) as I.
  assert (Ho : exists o, opts !! i = Some o /\ e = newEndpoint o).
  { rewrite (inv_endpoints _ _ _ I), list_lookup_fmap in He.
    destruct (opts !! i) as [o|]; [|discriminate].
    exists o. split; [reflexivity|]. now inversion He. }
  destruct Ho as (o & Ho & ->).
  assert (Honly : forall event j, EEnqueue event j ∈ tr -> ep j = i ->
                                  subscribed (newEndpoint o) event = true).
  { intros event j Hin Hep.
    destruct (inv_enq _ _ _ I event j Hin) as [(o' & Ho' & Hev) _].
    rewrite Hep, Ho in Ho'. inversion Ho'; subst o'.
    rewrite subscribed_newEndpoint. now apply bool_decide_eq_true_2. }
  assert (Hrecv : forall j, j ∈ received tr -> ep j = i ->
            exists event, subscribed (newEndpoint o) event = true /\
                          EEnqueue event j ∈ tr).
  { intros j Hj Hep.
    assert (Henq : j ∈ enqueued tr).
    { rewrite (inv_fifo _ _ _ I), elem_of_app. now left. }
    apply list_elem_of_omap in Henq as (x & Hx & Hxj).
    destruct x as [| ev j' | | |]; try discriminate. inversion Hxj; subst j'.
    exists ev. split; [|exact Hx]. now apply (Honly ev j). }
  split; [|split; [exact Honly|split; [exact Hrecv|]]].
  - intros event j Hsub Hin Hep.
    rewrite (Honly event j Hin Hep) in Hsub. discriminate.
  - intros r Hr. rewrite (inv_wire _ _ _ I) in Hr.
    apply list_elem_of_omap in Hr as (j & Hj & Hreq).
    unfold requestOf in Hreq.
    destruct (endpoints (mgr s) !! ep j) as [e'|]; [|discriminate].
    destruct (buildRequest e' (payload j)) as [r'|] eqn:Hb; [|discriminate].
    inversion Hreq; subst; clear Hreq.
    destruct (Hrecv j Hj eq_refl) as (event & Hsub & Hin).
    destruct (buildRequest_inl _ _ _ Hb) as (_ & _ & Hbody & _).
    exists event, j. auto.
Qed.

Lemma unsubscribed_no_job_witness :
  let e := newEndpoint (Demo.hook "crm" "my-secret-key"
                          [EventSubscriberCreated; EventSubscriberCreated]) in
  let j := mkJob 0 (list_byte_of_string "subscriber.created@7") in
  run Demo.sched (boot Demo.opts)
  = Some (Demo.final_of Demo.sched, Demo.trace_of Demo.sched) /\
  endpoints (mgr (Demo.final_of Demo.sched)) !! 0%nat = Some e /\
  j ∈ received (Demo.trace_of Demo.sched) /\
  exists event, subscribed e event = true /\
                EEnqueue event j ∈ Demo.trace_of Demo.sched.
Proof.
  intros e j.
  assert (Hrun : run Demo.sched (boot Demo.opts)
                 = Some (Demo.final_of Demo.sched, Demo.trace_of Demo.sched))
    by (vm_compute; reflexivity).
  assert (He : endpoints (mgr (Demo.final_of Demo.sched)) !! 0%nat = Some e)
    by (vm_compute; reflexivity).
  assert (Hj : j ∈ received (Demo.trace_of Demo.sched)).
  { apply (list_elem_of_lookup_2 _ 0%nat). vm_compute; reflexivity. }
  destruct (unsubscribed_no_job (L := Demo.lib) _ _ _ _ _ _ Hrun He)
    as (_ & _ & H & _).
  split; [exact Hrun|]. split; [exact He|]. split; [exact Hj|].
  exact (H j Hj eq_refl).
Defined.

(** ** Ordering *)

(** C6. In every run the jobs the worker has received, followed by the jobs
    still in the channel, are the jobs enqueued, in enqueue order; the same
    holds of the jobs of any single endpoint.  The requests made, for all
    endpoints and for each one, are those of the received jobs in the order
    of reception.  A running worker facing a non-empty channel can always
    take its receive step; that step takes the job at the head of the
    channel and runs [send] on it before the worker can receive again. *)
Theorem fifo_per_endpoint {any : Type} `{L : GoLib any}
    (opts : list Opt) (sched : list action) (s : System) (tr : list effect)
    (i : nat) :
  run sched (boot opts) = Some (s, tr) ->
  enqueued tr = received tr ++ ch (mgr s) /\
  filter (fun j => ep j = i) (enqueued tr)
  = filter (fun j => ep j = i) (received tr)
    ++ filter (fun j => ep j = i) (ch (mgr s)) /\
  wire tr = omap (requestOf (endpoints (mgr s))) (received tr) /\
  filter (fun x => fst x = i) (wire tr)
  = omap (requestOf (endpoints (mgr s)))
         (filter (fun j => ep j = i) (received tr)) /\
  (forall j q reply,
      worker_running s = true -> crashed s = false -> ch (mgr s) = j :: q ->
      exists s' t,
        step (AWorkerRecv reply) s = Some (s', ERecv j :: t) /\
        ch (mgr s') = q /\ received t = [] /\
        wire t = match requestOf (endpoints (mgr s)) j with
                 | Some x => [x]
                 | None => []
                 end).
Proof.
  intros Hrun. pose proof (run_Inv opts sched s tr Hrun) as I.
  split; [apply I|]. split; [|split; [apply I|split]].
  - rewrite (inv_fifo _ _ _ I). apply filter_app.
  - rewrite (inv_wire _ _ _ I).
    generalize (received tr). intros l.
    induction l as [|j l IH]; [reflexivity|].
    rewrite filter_cons. cbn [omap list_omap].
    assert (Hreq : forall x, requestOf (endpoints (mgr s)) j = Some x ->
                             fst x = ep j).
    { unfold requestOf. intros x.
      destruct (endpoints (mgr s) !! ep j); [|discriminate].
      destruct (buildRequest _ _); [|discriminate].
      intros H; inversion H; reflexivity. }
    destruct (decide (ep j = i)) as [E|E].
    + cbn [omap list_omap].
      destruct (requestOf (endpoints (mgr s)) j) as [x|] eqn:Hx; [|exact IH].
      rewrite filter_cons_True by (rewrite (Hreq x eq_refl); exact E).
      now rewrite IH.
    + destruct (requestOf (endpoints (mgr s)) j) as [x|] eqn:Hx; [|exact IH].
      rewrite filter_cons_False by (rewrite (Hreq x eq_refl); exact E).
      exact IH.
  - intros j q reply Hw Hcr Hch.
    assert (Henq : j ∈ enqueued tr).
    { rewrite (inv_fifo _ _ _ I), Hch, elem_of_app. right. left. }
    apply list_elem_of_omap in Henq as (x & Hx & Hxj).
    destruct x as [| ev j' | | |]; try discriminate. inversion Hxj; subst j'.
    destruct (inv_enq _ _ _ I ev j Hx) as [(o & Ho & _) _].
    assert (He : endpoints (mgr s) !! ep j = Some (newEndpoint o)).
    { rewrite (inv_endpoints _ _ _ I), list_lookup_fmap, Ho. reflexivity. }
    unfold step. rewrite Hcr. unfold step_recv. rewrite Hw, Hch, He.
    destruct (send_effects (ep j) (newEndpoint o) (payload j) reply
                (set_ch q (mgr s))) as [lines Hsend].
    rewrite Hsend. eexists _, _. split; [reflexivity|].
    split; [reflexivity|]. unfold requestOf. rewrite He.
    destruct (buildRequest (newEndpoint o) (payload j)); split; reflexivity.
Qed.

Lemma fifo_per_endpoint_witness :
  enqueued (Demo.trace_of Demo.sched)
  = received (Demo.trace_of Demo.sched) ++ ch (mgr (Demo.final_of Demo.sched)).
Proof.
  assert (Hrun : run Demo.sched (boot Demo.opts)
                 = Some (Demo.final_of Demo.sched, Demo.trace_of Demo.sched))
    by (vm_compute; reflexivity).
  exact (proj1 (fifo_per_endpoint (L := Demo.lib) _ _ _ _ 0%nat Hrun)).
Defined.

(** ** Serialization *)

(** C4. An emit on a manager with endpoints calls [json.Marshal] exactly
    once, on the envelope of the event, the timestamp and the data.  When
    that succeeds, a [select] is run for each subscribed endpoint, in order,
    and every job the call enqueues carries the bytes that one call
    returned.  When it fails, the error is logged as one line and the call
    returns: no [select] is run, no job is enqueued, the channel is as it
    was. *)
Theorem Dispatch_serializes_once {any : Type} `{L : GoLib any}
    (event : string) (data : any) (now : Z) (m m' : Manager)
    (t : list effect) :
  endpoints m <> [] ->
  Dispatch event data now m = (m', t) ->
  marshalled t = [mkPayload event now data] /\
  match json_Marshal (mkPayload event now data) with
  | inl b =>
      ch m' = ch m ++ enqueued t /\
      Forall (fun j => payload j = b) (enqueued t) /\
      attempted t = matching event 0 (endpoints m)
  | inr err =>
      t = [EMarshal (mkPayload event now data)] /\
      ch m' = ch m /\
      log m' = log m ++ ["webhook: error marshalling payload: " +:+ err]
  end.
Proof.
  intros Hne H.
  destruct (json_Marshal (mkPayload event now data)) as [b|err] eqn:Hm.
  - destruct (Dispatch_marshal_ok event data now b m m' t Hne Hm H)
      as (t2 & -> & Hl).
    destruct (Dispatch_loop_spec _ _ _ _ _ _ _ Hl)
      as (_ & _ & E3 & E4 & E5 & E6 & _).
    cbn [marshalled enqueued attempted omap list_omap].
    fold (marshalled t2) (enqueued t2) (attempted t2).
    rewrite E6. auto.
  - unfold Dispatch, Dispatch_enter in H.
    destruct (endpoints m) as [|e0 eps]; [congruence|].
    cbn [length Nat.eqb] in H. rewrite Hm in H.
    inversion H; subst; clear H. auto.
Qed.

Lemma Dispatch_serializes_once_witness :
  marshalled (snd (Dispatch EventSubscriberCreated true 7 (New Demo.opts)))
  = [mkPayload EventSubscriberCreated 7 true] /\
  payload <$> ch (fst (Dispatch EventSubscriberCreated true 7 (New Demo.opts)))
  = [list_byte_of_string "subscriber.created@7";
     list_byte_of_string "subscriber.created@7"].
Proof.
  assert (Hne : endpoints (New Demo.opts) <> [])
    by (rewrite New_endpoints; discriminate).
  split; [|vm_compute; reflexivity].
  exact (proj1 (Dispatch_serializes_once (L := Demo.lib) _ _ _ _ _ _ Hne
                  (surjective_pairing _))).
Defined.

Example Dispatch_marshal_failure :
  Dispatch EventSubscriberCreated false 7 (New Demo.opts)
  = (logPrintf "webhook: error marshalling payload: json: unsupported type: chan int"
       (New Demo.opts),
     [EMarshal (mkPayload EventSubscriberCreated 7 false)]).
Proof. vm_compute; reflexivity. Qed.

(** ** Duplicate entries in an event list *)

Lemma mkEvents_dom (es : list string) : dom (mkEvents es) = list_to_set es.
Proof.
  apply set_eq. intros x.
  rewrite elem_of_dom, mkEvents_lookup, elem_of_list_to_set.
  destruct (decide (x ∈ es)) as [H|H]; split; intros H'.
  - exact H.
  - eexists; reflexivity.
  - destruct H' as [? ?]; discriminate.
  - contradiction.
Qed.

(** C10. However often an event occurs in a record's event list, the
    endpoint's subscription set has it once, and an emit of it runs the
    [select] for that endpoint exactly once: either exactly one job for the
    endpoint, carrying the serialized payload, is enqueued, or none is and
    one drop is logged; when the channel has room for a job per endpoint it
    is the former. *)
Theorem duplicate_events_one_job {any : Type} `{L : GoLib any}
    (opts : list Opt) (i : nat) (o : Opt) (event : string) (data : any)
    (now : Z) (b : list byte) (m m' : Manager) (t : list effect) :
  opts !! i = Some o ->
  event ∈ Events o ->
  endpoints m = endpoints (New opts) ->
  json_Marshal (mkPayload event now data) = inl b ->
  Dispatch event data now m = (m', t) ->
  dom (events (newEndpoint o)) = list_to_set (Events o) /\
  length (filter (fun k => k = i) (attempted t)) = 1%nat /\
  (filter (fun j => ep j = i) (enqueued t) = [mkJob i b] /\
   filter (fun k => k = i) (dropped t) = []
   \/ filter (fun j => ep j = i) (enqueued t) = [] /\
      filter (fun k => k = i) (dropped t) = [i]) /\
  ((length (ch m) + length opts <= chCap)%nat ->
   filter (fun j => ep j = i) (enqueued t) = [mkJob i b]).
Proof.
  intros Ho Hev Heps Hm H.
  assert (Hne : endpoints m <> []).
  { rewrite Heps, New_endpoints. destruct opts; discriminate. }
  destruct (Dispatch_marshal_ok event data now b m m' t Hne Hm H)
    as (t2 & -> & Hl).
  destruct (Dispatch_loop_spec _ _ _ _ _ _ _ Hl)
    as (_ & _ & _ & Hatt & Hpay & _ & _ & _ & Hroom & _).
  cbn [attempted enqueued dropped omap list_omap].
  fold (attempted t2) (enqueued t2) (dropped t2).
  assert (Hcount : length (filter (fun k => k = i) (attempted t2)) = 1%nat).
  { rewrite Hatt.
    pose proof (matching_count event (endpoints m) 0 i (newEndpoint o)) as Hc.
    cbn [Nat.add] in Hc. rewrite Hc.
    - rewrite subscribed_newEndpoint. now rewrite bool_decide_eq_true_2.
    - rewrite Heps, New_lookup, Ho. reflexivity. }
  assert (Hjob : forall l : list dispatchJob,
             Forall (fun j => payload j = b) l ->
             length (filter (fun j => ep j = i) l) = 1%nat ->
             filter (fun j => ep j = i) l = [mkJob i b]).
  { intros l Hl' Hlen.
    destruct (filter (fun j => ep j = i) l) as [|j [|j' l']] eqn:Hf;
      try discriminate.
    assert (Hj : j ∈ filter (fun j => ep j = i) l) by (rewrite Hf; left).
    apply list_elem_of_filter in Hj as [Hep Hin].
    rewrite Forall_forall in Hl'. specialize (Hl' j Hin).
    destruct j; simpl in *; now subst. }
  assert (Hdrop : forall l : list nat,
             length (filter (fun k => k = i) l) = 1%nat ->
             filter (fun k => k = i) l = [i]).
  { intros l Hlen.
    destruct (filter (fun k => k = i) l) as [|k [|k' l']] eqn:Hf;
      try discriminate.
    assert (Hk : k ∈ filter (fun k => k = i) l) by (rewrite Hf; left).
    apply list_elem_of_filter in Hk as [-> _]. reflexivity. }
  pose proof (attempted_split t2 i) as Hsplit. rewrite Hcount in Hsplit.
  split; [apply mkEvents_dom|]. split; [exact Hcount|]. split.
  - destruct (length (filter (fun j => ep j = i) (enqueued t2))) as [|n] eqn:Hn.
    + right. split.
      * now apply length_zero_iff_nil.
      * apply Hdrop. simpl in Hsplit. lia.
    + left. split.
      * apply Hjob; [exact Hpay|]. lia.
      * apply length_zero_iff_nil. lia.
  - intros Hr. apply Hjob; [exact Hpay|].
    rewrite Hroom in Hsplit.
    + rewrite filter_nil in Hsplit. cbn [length] in Hsplit. lia.
    + rewrite Heps, New_endpoints, length_map. exact Hr.
Qed.

Lemma duplicate_events_one_job_witness :
  filter (fun j => ep j = 0%nat)
         (enqueued (snd (Dispatch EventSubscriberCreated true 7 (New Demo.opts))))
  = [mkJob 0 (list_byte_of_string "subscriber.created@7")].
Proof.
  assert (Ho : Demo.opts !! 0%nat
               = Some (Demo.hook "crm" "my-secret-key"
                         [EventSubscriberCreated; EventSubscriberCreated]))
    by reflexivity.
  assert (Hev : EventSubscriberCreated
                  ∈ [EventSubscriberCreated; EventSubscriberCreated]) by left.
  assert (Hm : json_Marshal (mkPayload EventSubscriberCreated 7 true)
               = inl (list_byte_of_string "subscriber.created@7"))
    by (vm_compute; reflexivity).
  destruct (duplicate_events_one_job (L := Demo.lib) _ _ _ _ _ _ _ _ _ _
              Ho Hev eq_refl Hm (surjective_pairing _)) as (_ & _ & _ & H).
  apply H. vm_compute. lia.
Defined.

(** ** Overflow *)

(** C2. In every state a run can reach the channel holds at most 1000 jobs,
    whatever the endpoints.  A caller inside the loop can always take its
    next step, full channel or not: it never waits.  When the endpoint it
    visits is subscribed to its event, the step appends the job to the
    channel if there is room; at capacity it leaves the channel as it is and
    logs one line naming the event and the endpoint.  Either way the caller
    moves on to the next endpoint, and what happens there depends on the
    channel at that moment only, not on the earlier drop. *)
Theorem enqueue_nonblocking {any : Type} `{L : GoLib any}
    (opts : list Opt) (sched : list action) (s : System) (tr : list effect)
    (k : nat) (f : frame) :
  run sched (boot opts) = Some (s, tr) ->
  crashed s = false ->
  callers s !! k = Some f ->
  chCap = 1000%nat /\ (length (ch (mgr s)) <= chCap)%nat /\
  is_Some (step (AVisit k) s) /\
  forall e,
    endpoints (mgr s) !! f_next f = Some e ->
    subscribed e (f_event f) = true ->
    exists s' t',
      step (AVisit k) s = Some (s', t') /\
      callers s'
      = <[k := mkFrame (f_event f) (f_payload f) (S (f_next f))]> (callers s) /\
      endpoints (mgr s') = endpoints (mgr s) /\
      if (length (ch (mgr s)) <? chCap)%nat then
        ch (mgr s') = ch (mgr s) ++ [mkJob (f_next f) (f_payload f)] /\
        log (mgr s') = log (mgr s) /\
        t' = [EEnqueue (f_event f) (mkJob (f_next f) (f_payload f))]
      else
        ch (mgr s') = ch (mgr s) /\
        log (mgr s')
        = log (mgr s) ++ ["webhook: dispatch queue full, dropping event "
                            +:+ f_event f +:+ " for " +:+ name e] /\
        t' = [EDrop (f_event f) (f_next f)].
Proof.
  intros Hrun Hcr Hf.
  pose proof (run_Inv opts sched s tr Hrun) as I.
  split; [reflexivity|]. split; [apply I|].
  unfold step. rewrite Hcr. unfold step_visit. rewrite Hf. split.
  - destruct (endpoints (mgr s) !! f_next f) as [e|]; [|eexists; reflexivity].
    destruct (Dispatch_visit _ _ _ e (mgr s)). eexists; reflexivity.
  - intros e He Hsub. rewrite He. unfold Dispatch_visit. rewrite Hsub.
    destruct (length (ch (mgr s)) <? chCap)%nat;
      eexists _, _; repeat split; reflexivity.
Qed.

Lemma enqueue_nonblocking_witness :
  let s := Demo.final_of [ACall EventSubscriberCreated true 7] in
  let b := list_byte_of_string "subscriber.created@7" in
  callers s !! 0%nat = Some (mkFrame EventSubscriberCreated b 0) /\
  exists s' t',
    step (AVisit 0) s = Some (s', t') /\
    t' = [EEnqueue EventSubscriberCreated (mkJob 0 b)].
Proof.
  intros s b.
  assert (Hrun : run [ACall EventSubscriberCreated true 7] (boot Demo.opts)
                 = Some (s, Demo.trace_of [ACall EventSubscriberCreated true 7]))
    by (vm_compute; reflexivity).
  assert (Hf : callers s !! 0%nat = Some (mkFrame EventSubscriberCreated b 0))
    by (vm_compute; reflexivity).
  split; [exact Hf|].
  destruct (enqueue_nonblocking (L := Demo.lib) _ _ _ _ 0%nat _ Hrun eq_refl Hf)
    as (_ & _ & _ & H).
  destruct (H (newEndpoint
                 (Demo.hook "crm" "my-secret-key"
                    [EventSubscriberCreated; EventSubscriberCreated]))
              ltac:(vm_compute; reflexivity) ltac:(vm_compute; reflexivity))
    as (s' & t' & Hstep & _ & _ & Hbr).
  vm_compute in Hbr. destruct Hbr as (_ & _ & Hbr).
  exists s', t'. split; [exact Hstep|]. vm_compute. exact Hbr.
Defined.

(** With the channel full, the job for the first endpoint is dropped and
    logged; the worker then takes a job, and the same emit enqueues its job
    for the second endpoint. *)
Example drop_then_enqueue :
  match run (Demo.burst ++
             [ ACall EventSubscriberCreated true 8; AVisit 0;
               AWorkerRecv (inl 200); AVisit 0; AVisit 0 ])
            (boot Demo.opts) with
  | Some (s, tr) =>
      Some (log (mgr s), length (ch (mgr s)), last (ch (mgr s)),
            dropped tr, callers s)
  | None => None
  end
  = Some (["webhook: dispatch queue full, dropping event subscriber.created for crm"],
          chCap,
          Some (mkJob 1 (list_byte_of_string "subscriber.created@8")),
          [0%nat], []).
Proof. vm_compute. reflexivity. Qed.

(** ** The event taxonomy *)

(** C9 as stated fails: [Dispatch] takes any string.  Here an endpoint
    subscribed to an event name outside the taxonomy gets a job for it. *)
Lemma dispatch_outside_taxonomy :
  exists s tr j,
    run [ACall "custom.event" true 7; AVisit 0] (boot Demo.custom)
    = Some (s, tr) /\
    EEnqueue "custom.event" j ∈ tr /\ j ∈ ch (mgr s) /\
    "custom.event" ∉ AllEvents.
Proof.
  eexists _, _, _. split; [vm_compute; reflexivity|].
  split; [right; left|]. split; [left|].
  intros H. repeat (apply elem_of_cons in H as [H|H]; [discriminate|]).
  inversion H.
Qed.

(** C9, amended.  [AllEvents] lists exactly the eleven event kinds, each
    once.  [Dispatch] does not check its argument against them; when every
    configured event list is drawn from [AllEvents], every event kind for
    which a job is enqueued or dropped, in any run, is one of the eleven. *)
Theorem dispatched_events_closed_set {any : Type} `{L : GoLib any}
    (opts : list Opt) (sched : list action) (s : System) (tr : list effect) :
  Forall (fun o => Forall (fun ev => ev ∈ AllEvents) (Events o)) opts ->
  run sched (boot opts) = Some (s, tr) ->
  AllEvents
  = [ "subscriber.created"; "subscriber.updated"; "subscriber.unsubscribed";
      "subscriber.confirmed"; "subscriber.blocklisted"; "subscriber.deleted";
      "campaign.started"; "campaign.finished";
      "tracking.link_click"; "tracking.email_open"; "tracking.bounce" ] /\
  length AllEvents = 11%nat /\ NoDup AllEvents /\
  (forall ev j, EEnqueue ev j ∈ tr -> ev ∈ AllEvents) /\
  (forall ev i, EDrop ev i ∈ tr -> ev ∈ AllEvents).
Proof.
  intros Hall Hrun. pose proof (run_Inv opts sched s tr Hrun) as I.
  split; [reflexivity|]. split; [reflexivity|]. split.
  - apply (bool_decide_unpack _). vm_compute. exact Logic.I.
  - rewrite Forall_forall in Hall. split.
    + intros ev j H. destruct (inv_enq _ _ _ I ev j H) as [(o & Ho & Hev) _].
      apply list_elem_of_lookup_2 in Ho. specialize (Hall o Ho).
      rewrite Forall_forall in Hall. now apply Hall.
    + intros ev i H. destruct (inv_drop _ _ _ I ev i H) as (o & Ho & Hev & _).
      apply list_elem_of_lookup_2 in Ho. specialize (Hall o Ho).
      rewrite Forall_forall in Hall. now apply Hall.
Qed.

Lemma dispatched_events_closed_set_witness :
  let j := mkJob 1 (list_byte_of_string "subscriber.created@7") in
  Forall (fun o => Forall (fun ev => ev ∈ AllEvents) (Events o)) Demo.opts /\
  run Demo.sched (boot Demo.opts)
  = Some (Demo.final_of Demo.sched, Demo.trace_of Demo.sched) /\
  EEnqueue EventSubscriberCreated j ∈ Demo.trace_of Demo.sched /\
  EventSubscriberCreated ∈ AllEvents.
Proof.
  intros j.
  assert (Hrun : run Demo.sched (boot Demo.opts)
                 = Some (Demo.final_of Demo.sched, Demo.trace_of Demo.sched))
    by (vm_compute; reflexivity).
  assert (Hall : Forall (fun o => Forall (fun ev => ev ∈ AllEvents) (Events o))
                        Demo.opts)
    by (repeat constructor).
  assert (Hj : EEnqueue EventSubscriberCreated j ∈ Demo.trace_of Demo.sched).
  { apply (list_elem_of_lookup_2 _ 2%nat). vm_compute; reflexivity. }
  split; [exact Hall|]. split; [exact Hrun|]. split; [exact Hj|].
  exact (proj1 (proj2 (proj2 (proj2
           (dispatched_events_closed_set (L := Demo.lib) _ _ _ _ Hall Hrun))))
         _ _ Hj).
Defined.

(** ** The package's tests, on the model *)

(** TestEventFiltering: of three emits, the two of the subscribed event
    leave a job. *)
Example test_event_filtering :
  let m0 := New [Demo.hook "test" "" [EventSubscriberCreated]] in
  let m1 := fst (Dispatch EventSubscriberCreated true 1 m0) in
  let m2 := fst (Dispatch EventCampaignStarted true 2 m1) in
  let m3 := fst (Dispatch EventSubscriberCreated true 3 m2) in
  ch m3 = [ mkJob 0 (list_byte_of_string "subscriber.created@1");
            mkJob 0 (list_byte_of_string "subscriber.created@3") ].
Proof. vm_compute; reflexivity. Qed.

(** TestMultipleEndpoints: one job for each of two subscribed endpoints. *)
Example test_multiple_endpoints :
  ep <$> ch (fst (Dispatch EventSubscriberCreated true 1
                    (New [Demo.hook "endpoint1" "" [EventSubscriberCreated];
                          Demo.hook "endpoint2" "" [EventSubscriberCreated]])))
  = [0%nat; 1%nat].
Proof. vm_compute; reflexivity. Qed.

(** TestSignatureHeader, TestNoSignatureWhenNoSecret, TestContentTypeHeader
    and TestUserAgentHeader. *)
Example test_headers :
  let pl := list_byte_of_string "subscriber.created@1" in
  match buildRequest (newEndpoint (Demo.hook "t" "test-secret" [])) pl,
        buildRequest (newEndpoint (Demo.hook "t" "" [])) pl with
  | inl signed, inl plain =>
      Header_Get "X-Webhook-Signature" signed
      = "sha256=" +:+ computeHMAC pl "test-secret" /\
      Header_Get "X-Webhook-Signature" plain = "" /\
      Header_Get "Content-Type" plain = "application/json" /\
      Header_Get "User-Agent" plain = "listmonk"
  | _, _ => False
  end.
Proof. vm_compute; repeat split; reflexivity. Qed.

(** TestErrorResponse: a status of 400 or more is logged, a lower one is not. *)
Example test_error_response :
  let e := newEndpoint (Demo.hook "error-test" "" []) in
  log (fst (send 0 e [] (inl 500) (New [])))
  = ["webhook: non-OK response from error-test: 500"] /\
  log (fst (send 0 e [] (inl 399) (New []))) = [] /\
  log (fst (send 0 e [] (inr "context deadline exceeded") (New [])))
  = ["webhook: error sending to error-test: context deadline exceeded"].
Proof. vm_compute; repeat split; reflexivity. Qed.

(** TestHasEndpoints and TestAllEventConstants. *)
Example test_has_endpoints :
  HasEndpoints (New []) = false /\
  HasEndpoints (New [Demo.hook "test" "" [EventSubscriberCreated]]) = true /\
  length AllEvents = 11%nat.
Proof. repeat split; reflexivity. Qed.

Example test_hex :
  hex_EncodeToString [x00; x0f; xa5; xff] = "000fa5ff".
Proof. reflexivity. Qed.

(** * Further properties of the dispatcher *)












(** X4. [New] builds one endpoint per record, in order, copying uuid,
    name, url and secret; an endpoint is subscribed to exactly the events
    its record lists; the response-header timeout is the request timeout;
    and a timeout or max-connections other than zero, a negative one
    included, is taken as it is. *)
Theorem New_keeps_identity (opts : list Opt) :
  length (endpoints (New opts)) = length opts /\
  Forall2
    (fun o e =>
       uuid e = UUID o /\ name e = Name o /\ url e = URL o /\
       secret e = Secret o /\
       (forall event, subscribed e event = true <-> event ∈ Events o) /\
       ResponseHeaderTimeout (client_Transport (client e))
       = client_Timeout (client e) /\
       (Timeout o <> 0 -> client_Timeout (client e) = Timeout o) /\
       (MaxConns o <> 0 ->
        MaxConnsPerHost (client_Transport (client e)) = MaxConns o /\
        MaxIdleConnsPerHost (client_Transport (client e)) = MaxConns o))
    opts (endpoints (New opts)).
Proof.
  rewrite New_endpoints. split; [apply length_map|].
  induction opts as [|o opts IH]; simpl; constructor; [|exact IH].
  split_and!; try reflexivity.
  - intros event. rewrite subscribed_newEndpoint. split.
    + apply bool_decide_eq_true_1.
    + apply bool_decide_eq_true_2.
  - intros H. unfold newEndpoint; simpl.
    destruct (Z.eqb_spec (Timeout o) 0); [contradiction|reflexivity].
  - intros H. unfold newEndpoint; simpl.
    destruct (Z.eqb_spec (MaxConns o) 0); [contradiction|split; reflexivity].
Qed.

(** X5. [Dispatch] does no network I/O and never takes a job off the
    channel: it leaves the endpoints and the stop channel alone, makes no
    request, receives nothing, marshals at most once, only appends to the
    channel, and keeps the channel within its capacity. *)
Theorem Dispatch_only_enqueues {any : Type} `{L : GoLib any}
    (event : string) (data : any) (now : Z) (m : Manager) :
  let m' := fst (Dispatch event data now m) in
  let t := snd (Dispatch event data now m) in
  endpoints m' = endpoints m /\ closeCh m' = closeCh m /\
  wire t = [] /\ received t = [] /\ (length (marshalled t) <= 1)%nat /\
  ch m' = ch m ++ enqueued t /\
  ((length (ch m) <= chCap)%nat -> (length (ch m') <= chCap)%nat).
Proof.
  unfold Dispatch, Dispatch_enter.
  destruct (length (endpoints m) =? 0)%nat.
  - simpl. rewrite app_nil_r. repeat split; auto.
  - destruct (json_Marshal (mkPayload event now data)) as [b|err].
    + destruct (Dispatch_loop event b 0 (endpoints m) m) as [m2 t2] eqn:Hl.
      destruct (Dispatch_loop_spec _ _ _ _ _ _ _ Hl)
        as (E1 & E2 & E3 & _ & _ & E6 & E7 & E8 & _ & E10).
      cbn [fst snd app wire received marshalled enqueued omap list_omap].
      fold (wire t2) (received t2) (marshalled t2) (enqueued t2).
      rewrite E6. repeat split; auto.
    + simpl. rewrite app_nil_r. repeat split; auto.
Qed.

(** X6. [send] appends nothing to the log exactly when the request could be
    built and the reply is a status below 400; in every other case it appends
    exactly one line.  It hands no request to the client exactly when the
    request could not be built, one otherwise, and touches neither the
    endpoints nor the channels. *)
Theorem send_logs_failures {any : Type} `{L : GoLib any}
    (i : nat) (e : endpoint) (pl : list byte) (reply : Z + string)
    (m : Manager) :
  let m' := fst (send i e pl reply m) in
  let t := snd (send i e pl reply m) in
  endpoints m' = endpoints m /\ ch m' = ch m /\ closeCh m' = closeCh m /\
  (exists lines, log m' = log m ++ lines /\ (length lines <= 1)%nat) /\
  (log m' = log m <->
   exists r status, buildRequest e pl = inl r /\ reply = inl status /\
                    status < 400) /\
  (wire t = [] <-> exists err, buildRequest e pl = inr err) /\
  (length (wire t) <= 1)%nat /\
  received t = [] /\ enqueued t = [].
Proof.
  assert (Hgrow : forall (l : list string) x, l ++ [x] <> l).
  { intros l x H. apply (f_equal length) in H.
    rewrite length_app in H. simpl in H. lia. }
  unfold send.
  destruct (buildRequest e pl) as [r|err0].
  - destruct reply as [status|err].
    + destruct (Z.leb_spec 400 status) as [Hs|Hs]; cbn [fst snd];
        split_and!; try reflexivity.
      * eexists [_]. split; [reflexivity|simpl; lia].
      * split.
        -- intros H. simpl in H. now apply Hgrow in H.
        -- intros (r' & st & _ & Hst & Hlt). inversion Hst; subst. lia.
      * split; [discriminate|]. intros [err H]. discriminate.
      * exists []. rewrite app_nil_r. split; [reflexivity|simpl; lia].
      * split; [|reflexivity]. intros _. exists r, status. auto.
      * split; [discriminate|]. intros [err H]. discriminate.
    + cbn [fst snd]. split_and!; try reflexivity.
      * eexists [_]. split; [reflexivity|simpl; lia].
      * split.
        -- intros H. simpl in H. now apply Hgrow in H.
        -- intros (r' & st & _ & Hst & _). discriminate.
      * split; [discriminate|]. intros [err' H]. discriminate.
  - cbn [fst snd]. split_and!; try reflexivity.
    + eexists [_]. split; [reflexivity|simpl; lia].
    + split.
      * intros H. simpl in H. now apply Hgrow in H.
      * intros (r' & st & Hb & _). discriminate.
    + split; [|reflexivity]. intros _. now exists err0.
    + simpl; lia.
Qed.

(** X7. [computeHMAC] returns two lowercase hexadecimal digits per byte of
    the MAC, which decode to the MAC; so two signatures are equal exactly
    when the two MACs are. *)
Theorem computeHMAC_hex {any : Type} `{L : GoLib any}
    (pl pl' : list byte) (sec sec' : string) :
  let mac := hmac_sha256 (list_byte_of_string sec) pl in
  let mac' := hmac_sha256 (list_byte_of_string sec') pl' in
  String.length (computeHMAC pl sec) = (2 * length mac)%nat /\
  hex_decode_lower (computeHMAC pl sec) = Some (map Byte.to_N mac) /\
  (computeHMAC pl sec = computeHMAC pl' sec' <-> mac = mac').
Proof.
  intros mac mac'. unfold computeHMAC. fold mac mac'.
  split; [|split; [apply hex_EncodeToString_lower|split]].
  - generalize mac. intros l. induction l as [|v l IH]; [reflexivity|].
    cbn [hex_EncodeToString String.length length]. rewrite IH. lia.
  - intros H. apply (f_equal hex_decode_lower) in H.
    rewrite !hex_EncodeToString_lower in H. inversion H as [H'].
    clear H. revert H'. generalize mac'. generalize mac.
    induction mac0 as [|x l IH]; intros [|y l'] H'; try discriminate;
      [reflexivity|].
    cbn [map] in H'. inversion H' as [[Hx Hl]].
    f_equal; [|now apply IH].
    pose proof (Byte.of_to_N x) as Ex. rewrite Hx, Byte.of_to_N in Ex.
    now inversion Ex.
  - intros ->. reflexivity.
Qed.

(** ** The worker and the stop channel *)

Lemma step_lifecycle {any : Type} `{L : GoLib any}
    (a : action) (s s' : System) (t : list effect) :
  step a s = Some (s', t) ->
  (closeCh (mgr s) = true -> closeCh (mgr s') = true) /\
  (closeCh (mgr s') = true -> closeCh (mgr s) = true \/ a = AClose) /\
  (worker_running s' = false ->
   worker_running s = false \/ closeCh (mgr s') = true) /\
  (worker_running s = false ->
   worker_running s' = false /\ received t = [] /\ wire t = [] /\
   exists more, ch (mgr s') = ch (mgr s) ++ more).
Proof.
  unfold step. destruct (crashed s); [discriminate|].
  destruct a as [event data now|k|reply| |].
  - unfold Dispatch_enter.
    destruct (length (endpoints (mgr s)) =? 0)%nat;
      [|destruct (json_Marshal _)];
      intros H; inversion H; subst; clear H; cbn;
      split_and!; auto; intros Hw; split_and!; auto;
      exists []; now rewrite app_nil_r.
  - unfold step_visit.
    destruct (callers s !! k) as [f|]; [|discriminate].
    destruct (endpoints (mgr s) !! f_next f) as [e|].
    + destruct (Dispatch_visit_cases (any := any) (f_event f) (f_payload f)
                  (f_next f) e (mgr s))
        as [[_ Hc]|[(_ & _ & Hc)|(_ & _ & Hc)]];
        rewrite Hc; intros H; inversion H; subst; clear H; cbn;
        split_and!; auto; intros Hw; split_and!; auto;
        first [ exists []; now rewrite app_nil_r | eexists; reflexivity ].
    + intros H; inversion H; subst; clear H; cbn.
      split_and!; auto. intros Hw; split_and!; auto.
      exists []; now rewrite app_nil_r.
  - unfold step_recv. destruct (worker_running s) eqn:Hw; [|discriminate].
    destruct (ch (mgr s)) as [|j q]; [discriminate|].
    destruct (endpoints (mgr s) !! ep j) as [e|]; [|discriminate].
    destruct (send_effects (ep j) e (payload j) reply (set_ch q (mgr s)))
      as [lines Hsend].
    rewrite Hsend. intros H; inversion H; subst; clear H; cbn.
    split_and!; auto; discriminate.
  - destruct (worker_running s) eqn:Hw; [|discriminate].
    destruct (closeCh (mgr s)) eqn:Hc; [|discriminate].
    intros H; inversion H; subst; clear H; cbn.
    split_and!; auto; discriminate.
  - unfold Close. destruct (closeCh (mgr s)) eqn:Hc;
      intros H; inversion H; subst; clear H; cbn;
      split_and!; auto; intros Hw; split_and!; auto;
      exists []; now rewrite app_nil_r.
Qed.

(** X8. Once the worker has returned, nothing is delivered any more: in
    every continuation the worker stays stopped, no job is received, no
    request is made, and the jobs that were in the channel stay there, in
    place, with later ones behind them.  ([Close] does not drain.) *)
Theorem stopped_worker_delivers_nothing {any : Type} `{L : GoLib any}
    (sched : list action) (s0 s : System) (tr : list effect) :
  worker_running s0 = false ->
  run sched s0 = Some (s, tr) ->
  worker_running s = false /\ received tr = [] /\ wire tr = [] /\
  exists more, ch (mgr s) = ch (mgr s0) ++ more.
Proof.
  revert s0 tr. induction sched as [|a sched IH]; intros s0 tr Hw Hr;
    cbn [run] in Hr.
  - inversion Hr; subst. split_and!; auto. exists []. now rewrite app_nil_r.
  - destruct (step a s0) as [[s1 t1]|] eqn:Hs; [|discriminate].
    destruct (run sched s1) as [[s2 t2]|] eqn:Hr2; [|discriminate].
    inversion Hr; subst; clear Hr.
    destruct (step_lifecycle _ _ _ _ Hs) as (_ & _ & _ & H4).
    destruct (H4 Hw) as (Hw1 & Hrc & Hwi & more1 & Hch1).
    destruct (IH s1 t2 Hw1 Hr2) as (Hw2 & Hrc2 & Hwi2 & more2 & Hch2).
    rewrite received_app, wire_app, Hrc, Hwi, Hrc2, Hwi2.
    split_and!; auto. exists (more1 ++ more2).
    now rewrite Hch2, Hch1, app_assoc.
Qed.

Lemma stopped_worker_delivers_nothing_witness :
  let stopped := Demo.final_of [ACall EventSubscriberCreated true 7; AVisit 0;
                                AClose; AWorkerStop] in
  match run [AVisit 0; ACall EventSubscriberCreated true 8; AVisit 1; AVisit 1]
            stopped with
  | Some (s, tr) => received tr = [] /\ wire tr = [] /\
                    length (ch (mgr s)) = 4%nat
  | None => False
  end.
Proof.
  intros stopped.
  destruct (run [AVisit 0; ACall EventSubscriberCreated true 8; AVisit 1;
                 AVisit 1] stopped) as [[s tr]|] eqn:Hr.
  - destruct (stopped_worker_delivers_nothing (L := Demo.lib) _ stopped s tr
                ltac:(vm_compute; reflexivity) Hr) as (_ & H1 & H2 & _).
    split; [exact H1|]. split; [exact H2|].
    vm_compute in Hr. injection Hr as <- _. vm_compute; reflexivity.
  - vm_compute in Hr. discriminate.
Defined.

Lemma run_lifecycle {any : Type} `{L : GoLib any}
    (sched : list action) (s0 s : System) (tr : list effect) :
  run sched s0 = Some (s, tr) ->
  (closeCh (mgr s0) = true -> closeCh (mgr s) = true) /\
  (closeCh (mgr s) = true -> closeCh (mgr s0) = true \/ AClose ∈ sched) /\
  (worker_running s = false ->
   worker_running s0 = false \/ closeCh (mgr s) = true).
Proof.
  revert s0 tr. induction sched as [|a sched IH]; intros s0 tr Hr;
    cbn [run] in Hr.
  - inversion Hr; subst. split_and!; auto.
  - destruct (step a s0) as [[s1 t1]|] eqn:Hs; [|discriminate].
    destruct (run sched s1) as [[s2 t2]|] eqn:Hr2; [|discriminate].
    inversion Hr; subst; clear Hr.
    destruct (step_lifecycle _ _ _ _ Hs) as (S1 & S2 & S3 & _).
    destruct (IH s1 t2 Hr2) as (R1 & R2 & R3).
    split_and!.
    + auto.
    + intros Hc. destruct (R2 Hc) as [Hc1|Hin].
      * destruct (S2 Hc1) as [Hc0| ->]; [now left|right; left].
      * right. now right.
    + intros Hw. destruct (R3 Hw) as [Hw1|Hc]; [|now right].
      destruct (S3 Hw1) as [Hw0|Hc1]; [now left|right; auto].
Qed.

(** X9. The worker returns only after [Close]: in every run from [New], a
    stopped worker means the stop channel is closed, a closed stop channel
    means [Close] was called, and once closed the stop channel stays
    closed; so as long as nobody calls [Close] the worker keeps running. *)
Theorem worker_stops_only_after_Close {any : Type} `{L : GoLib any}
    (opts : list Opt) (sched sched' : list action) (s s' : System)
    (tr tr' : list effect) :
  run sched (boot opts) = Some (s, tr) ->
  run sched' s = Some (s', tr') ->
  (worker_running s = false -> closeCh (mgr s) = true) /\
  (closeCh (mgr s) = true -> AClose ∈ sched) /\
  (AClose ∉ sched -> worker_running s = true) /\
  (closeCh (mgr s) = true -> closeCh (mgr s') = true).
Proof.
  intros Hr Hr'.
  destruct (run_lifecycle _ _ _ _ Hr) as (_ & R2 & R3).
  destruct (run_lifecycle _ _ _ _ Hr') as (R1' & _).
  assert (Hc : closeCh (mgr s) = true -> AClose ∈ sched).
  { intros Hc. destruct (R2 Hc) as [H|H]; [discriminate|exact H]. }
  assert (Hw : worker_running s = false -> closeCh (mgr s) = true).
  { intros Hw. destruct (R3 Hw) as [H|H]; [discriminate|exact H]. }
  split_and!; auto.
  intros Hn. destruct (worker_running s) eqn:E; [reflexivity|].
  exfalso. apply Hn, Hc, Hw. reflexivity.
Qed.

Lemma worker_stops_only_after_Close_witness :
  worker_running (Demo.final_of Demo.sched) = true.
Proof.
  assert (Hrun : run Demo.sched (boot Demo.opts)
                 = Some (Demo.final_of Demo.sched, Demo.trace_of Demo.sched))
    by (vm_compute; reflexivity).
  assert (Hnil : run [] (Demo.final_of Demo.sched)
                 = Some (Demo.final_of Demo.sched, [])) by reflexivity.
  destruct (worker_stops_only_after_Close (L := Demo.lib) _ _ _ _ _ _ _
              Hrun Hnil) as (_ & _ & H & _).
  apply H. intros Hin. vm_compute in Hin.
  repeat (apply elem_of_cons in Hin as [Hin|Hin]; [discriminate|]).
  inversion Hin.
Defined.

(** * Properties of the receiver *)

Lemma strip_prefix_spec (p s r : string) :
  strip_prefix p s = Some r <-> s = p +:+ r.
Proof.
  revert s. induction p as [|a p IH]; intros s; cbn [strip_prefix String.append].
  - split; [intros H; now inversion H|intros ->; reflexivity].
  - destruct s as [|b s].
    + split; discriminate.
    + destruct (Ascii.eqb_spec a b) as [->|Hne].
      * rewrite IH. split; [intros ->; reflexivity|intros H; now inversion H].
      * split; [discriminate|]. intros H. inversion H. congruence.
Qed.

Lemma hmac_Equal_eq (a b : list byte) : hmac_Equal a b = true <-> a = b.
Proof.
  revert b. induction a as [|x a IH]; intros [|y b]; cbn [hmac_Equal];
    try (split; [reflexivity || discriminate|discriminate || reflexivity]).
  rewrite andb_true_iff, IH. split.
  - intros [Hxy ->]. apply Byte.byte_dec_bl in Hxy. now subst.
  - intros H. inversion H; subst. split; [|reflexivity].
    destruct (Byte.eqb y y) eqn:E; [reflexivity|].
    now apply Byte.eqb_false in E.
Qed.

Lemma list_byte_of_string_inj (s1 s2 : string) :
  list_byte_of_string s1 = list_byte_of_string s2 -> s1 = s2.
Proof.
  intros H. apply (f_equal string_of_list_byte) in H.
  now rewrite !string_of_list_byte_of_string in H.
Qed.

(** X10. The receiver accepts a signature exactly when it is ["sha256="]
    followed by the lowercase hexadecimal HMAC of the body under its own
    secret: a missing prefix, another digest, or uppercase digits are all
    refused. *)
Theorem verifySignature_iff {any : Type} `{L : GoLib any}
    (s : Receiver.Server any) (pl : list byte) (sig : string) :
  Receiver.verifySignature s pl sig = true
  <-> sig = "sha256=" +:+ Receiver.computeHMAC pl (Receiver.secret s).
Proof.
  unfold Receiver.verifySignature, strings_HasPrefix, strings_TrimPrefix.
  destruct (strip_prefix "sha256=" sig) as [rest|] eqn:Hp; cbn [negb].
  - apply strip_prefix_spec in Hp. subst sig. rewrite hmac_Equal_eq. split.
    + intros H. apply list_byte_of_string_inj in H. now rewrite H.
    + intros H.
      pose proof (proj2 (strip_prefix_spec "sha256=" _ rest) eq_refl) as E1.
      pose proof (proj2 (strip_prefix_spec "sha256=" _ _) H) as E2.
      rewrite E1 in E2. now inversion E2.
  - split; [discriminate|]. intros H.
    apply strip_prefix_spec in H. congruence.
Qed.

Lemma verifySignature_accepts {any : Type} `{L : GoLib any}
    (s : Receiver.Server any) (pl : list byte) :
  Receiver.verifySignature s pl
    ("sha256=" +:+ Receiver.computeHMAC pl (Receiver.secret s)) = true.
Proof.
  unfold Receiver.verifySignature, strings_HasPrefix, strings_TrimPrefix.
  rewrite (proj2 (strip_prefix_spec "sha256=" _ _) eq_refl). cbn [negb].
  now apply hmac_Equal_eq.
Qed.

(** X11. What [/webhook] does with a request.  Anything but POST gets 405;
    a POST whose body cannot be read or parsed gets 400; in both cases
    nothing is stored.  A POST whose body parses gets 200 and is stored, at
    the end, with the reception time and a validity flag computed by the
    receiver, true when no secret is configured or the signature verifies:
    a bad or missing signature is recorded, never refused, and the flag in
    the payload itself is ignored. *)
Theorem handleWebhook_outcomes {any : Type} `{L : GoLib any}
    `{R : Receiver.RecvLib any}
    (method sig : string) (read : list byte + string) (now : Z)
    (s : Receiver.Server any) :
  let s' := fst (fst (Receiver.handleWebhook method sig read now s)) in
  let resp := snd (fst (Receiver.handleWebhook method sig read now s)) in
  Receiver.secret s' = Receiver.secret s /\
  (Receiver.code resp = 405 <-> method <> "POST") /\
  (Receiver.code resp = 200 <->
   method = "POST" /\
   exists bd parsed, read = inl bd /\ Receiver.json_Unmarshal bd = inl parsed) /\
  (Receiver.code resp = 200 \/ Receiver.code resp = 400 \/
   Receiver.code resp = 405) /\
  (Receiver.code resp <> 200 -> s' = s) /\
  (forall bd parsed,
      method = "POST" -> read = inl bd ->
      Receiver.json_Unmarshal bd = inl parsed ->
      Receiver.events s'
      = Receiver.events s
        ++ [Receiver.mkWebhookEvent (Receiver.Event parsed)
              (Receiver.Timestamp parsed) (Receiver.Data parsed) now
              (String.eqb (Receiver.secret s) ""
               || Receiver.verifySignature s bd sig)]).
Proof.
  unfold Receiver.handleWebhook.
  destruct (String.eqb_spec method "POST") as [->|Hm]; cbn [negb].
  - destruct read as [bd|err].
    + destruct (Receiver.json_Unmarshal bd) as [parsed|err] eqn:Hu.
      * destruct (negb (String.eqb (Receiver.secret s) "")) eqn:Hs;
          [destruct (Receiver.verifySignature s bd sig) eqn:Hv|];
          cbn [fst snd Receiver.secret Receiver.events Receiver.code];
          (split_and!;
           [ reflexivity
           | split; [discriminate|intros H; now elim H]
           | split; [intros _; split; [reflexivity|eauto]|reflexivity]
           | now left
           | intros H; now elim H
           | intros bd' parsed' _ Hbd Hp; inversion Hbd; subst bd';
             rewrite Hu in Hp; inversion Hp; subst parsed';
             try rewrite Hv;
             destruct (String.eqb (Receiver.secret s) ""); try discriminate;
             reflexivity ]).
      * destruct (negb (String.eqb (Receiver.secret s) ""));
          [destruct (Receiver.verifySignature s bd sig)|];
          cbn [fst snd Receiver.secret Receiver.events Receiver.code
               Receiver.http_Error];
          (split_and!;
           [ reflexivity
           | split; [discriminate|intros H; now elim H]
           | split; [discriminate|];
             intros (_ & bd' & p' & Hbd & Hp); inversion Hbd; subst bd';
             rewrite Hu in Hp; discriminate
           | right; now left
           | reflexivity
           | intros bd' parsed' _ Hbd Hp; inversion Hbd; subst bd';
             rewrite Hu in Hp; discriminate ]).
    + cbn [fst snd Receiver.secret Receiver.events Receiver.code
           Receiver.http_Error].
      split_and!.
      * reflexivity.
      * split; [discriminate|intros H; now elim H].
      * split; [discriminate|].
        intros (_ & bd' & p' & Hbd & _). discriminate.
      * right; now left.
      * reflexivity.
      * intros bd' parsed' _ Hbd _. discriminate.
  - cbn [fst snd Receiver.secret Receiver.events Receiver.code
         Receiver.http_Error].
    split_and!.
    + reflexivity.
    + split; [intros _; exact Hm|reflexivity].
    + split; [discriminate|]. intros [H _]. contradiction.
    + right; now right.
    + reflexivity.
    + intros bd parsed H. contradiction.
Qed.

(** X12. Sender and receiver agree.  A request the dispatcher makes for an
    endpoint, arriving at a receiver configured with that endpoint's
    secret (empty or not), is answered 200 and stored as signature-valid
    whenever its body parses; when the secret is not empty the receiver
    logs that the signature is valid.  A request made for an endpoint
    without secret fails the check of any receiver that has one. *)
Theorem dispatched_request_accepted {any : Type} `{L : GoLib any}
    `{R : Receiver.RecvLib any}
    (opts : list Opt) (sched : list action) (s : System) (tr : list effect)
    (i : nat) (r : Request) (o : Opt) (srv : Receiver.Server any)
    (parsed : Receiver.WebhookEvent any) (now : Z) :
  run sched (boot opts) = Some (s, tr) ->
  (i, r) ∈ wire tr ->
  opts !! i = Some o ->
  Receiver.json_Unmarshal (Body r) = inl parsed ->
  (Receiver.secret srv = Secret o ->
   Receiver.events (fst (fst (Receiver.deliver r now srv)))
   = Receiver.events srv
     ++ [Receiver.mkWebhookEvent (Receiver.Event parsed)
           (Receiver.Timestamp parsed) (Receiver.Data parsed) now true] /\
   Receiver.code (snd (fst (Receiver.deliver r now srv))) = 200 /\
   (Secret o <> "" -> "signature: valid" ∈ snd (Receiver.deliver r now srv))) /\
  (Secret o = "" -> Receiver.secret srv <> "" ->
   Receiver.verifySignature srv (Body r) (Header_Get "X-Webhook-Signature" r)
   = false).
Proof.
  intros Hrun Hin Ho Hp. pose proof (run_Inv opts sched s tr Hrun) as I.
  rewrite (inv_wire _ _ _ I) in Hin.
  apply list_elem_of_omap in Hin as (j & Hj & Hreq).
  unfold requestOf in Hreq.
  destruct (endpoints (mgr s) !! ep j) as [e|] eqn:He; [|discriminate].
  destruct (buildRequest e (payload j)) as [r'|] eqn:Hb; [|discriminate].
  inversion Hreq; subst; clear Hreq.
  rewrite (inv_endpoints _ _ _ I), list_lookup_fmap, Ho in He.
  inversion He; subst; clear He.
  destruct (buildRequest_inl _ _ _ Hb) as (Hmeth & _ & Hbody & _ & _ & Hsig).
  cbn [secret newEndpoint] in Hsig.
  assert (Hget : Header_Get "X-Webhook-Signature" r
                 = if decide (Secret o = "") then ""
                   else "sha256=" +:+ hex_EncodeToString
                          (hmac_sha256 (list_byte_of_string (Secret o)) (Body r))).
  { unfold Header_Get. rewrite Hsig, Hbody.
    destruct (decide (Secret o = "")); reflexivity. }
  split.
  - intros Hsec. unfold Receiver.deliver, Receiver.handleWebhook.
    rewrite Hmeth, Hp, Hget. cbn [String.eqb Ascii.eqb Bool.eqb negb].
    rewrite Hsec.
    destruct (decide (Secret o = "")) as [E|E].
    + rewrite E. cbn. split_and!; auto. intros H; now elim H.
    + destruct (String.eqb_spec (Secret o) "") as [E'|_]; [contradiction|].
      cbn [negb].
      assert (Hv : Receiver.verifySignature srv (Body r)
                     ("sha256=" +:+ hex_EncodeToString
                        (hmac_sha256 (list_byte_of_string (Secret o)) (Body r)))
                   = true).
      { pose proof (verifySignature_accepts srv (Body r)) as Hv.
        unfold Receiver.computeHMAC in Hv. now rewrite Hsec in Hv. }
      rewrite Hv. cbn. split_and!; auto. intros _. left.
  - intros E Hsrv. rewrite Hget, decide_True by exact E. reflexivity.
Qed.

Lemma dispatched_request_accepted_witness :
  let r := Demo.first_request Demo.sched in
  let out := Receiver.deliver r 9 (Receiver.mkServer "my-secret-key" []) in
  Receiver.SignatureValid <$> Receiver.events (fst (fst out)) = [true] /\
  Receiver.code (snd (fst out)) = 200.
Proof.
  intros r out.
  assert (Hrun : run Demo.sched (boot Demo.opts)
                 = Some (Demo.final_of Demo.sched, Demo.trace_of Demo.sched))
    by (vm_compute; reflexivity).
  assert (Hin : (0%nat, r) ∈ wire (Demo.trace_of Demo.sched)).
  { apply (list_elem_of_lookup_2 _ 0%nat). vm_compute; reflexivity. }
  assert (Ho : Demo.opts !! 0%nat
               = Some (Demo.hook "crm" "my-secret-key"
                         [EventSubscriberCreated; EventSubscriberCreated]))
    by reflexivity.
  assert (Hp : Receiver.json_Unmarshal (Body r)
               = inl (Receiver.mkWebhookEvent "subscriber.created" 0 true 0 false))
    by (vm_compute; reflexivity).
  destruct (dispatched_request_accepted (L := Demo.lib)
              (R := Receiver.demo_lib) _ _ _ _ _ _ _
              (Receiver.mkServer "my-secret-key" []) _ 9 Hrun Hin Ho Hp)
    as [H _].
  destruct (H eq_refl) as (He & Hc & _).
  fold out in He, Hc. split; [|exact Hc]. rewrite He. reflexivity.
Defined.

(** X13. The line [signature: valid], which the integration script looks
    for in the receiver's log, is printed for a request exactly when it is
    a POST whose body could be read, a secret is configured and the
    signature verifies. *)
Theorem signature_valid_logged {any : Type} `{L : GoLib any}
    `{R : Receiver.RecvLib any}
    (method sig : string) (read : list byte + string) (now : Z)
    (s : Receiver.Server any) :
  "signature: valid" ∈ snd (Receiver.handleWebhook method sig read now s)
  <-> method = "POST" /\ Receiver.secret s <> "" /\
      exists bd, read = inl bd /\ Receiver.verifySignature s bd sig = true.
Proof.
  unfold Receiver.handleWebhook.
  destruct (String.eqb_spec method "POST") as [->|Hm]; cbn [negb].
  - destruct read as [bd|err].
    + destruct (String.eqb_spec (Receiver.secret s) "") as [Hs|Hs];
        cbn [negb];
        [|destruct (Receiver.verifySignature s bd sig) eqn:Hv];
        destruct (Receiver.json_Unmarshal bd) as [parsed|err]; cbn [snd];
        rewrite ?elem_of_app, ?elem_of_cons, ?elem_of_nil; cbn [String.append];
        (split;
         [ intros H; decompose [or] H; try discriminate; try contradiction;
           split_and!; eauto
         | intros (_ & Hne & bd' & Hbd & Hv'); inversion Hbd; subst bd';
           try contradiction; try congruence; auto ]).
    + cbn [snd]. rewrite ?elem_of_cons, ?elem_of_nil. cbn [String.append].
      split.
      * intros H; decompose [or] H; try discriminate; contradiction.
      * intros (_ & _ & bd & Hbd & _). discriminate.
  - cbn [snd]. rewrite elem_of_nil. split; [contradiction|].
    intros [H _]. contradiction.
Qed.

Lemma collect_spec {any : Type} (eventType : string)
    (evs : list (Receiver.WebhookEvent any)) :
  forall acc,
    Receiver.collect eventType evs acc
    = match List.filter (fun e => String.eqb (Receiver.Event e) eventType) evs with
      | [] => acc
      | ms => Some (default [] acc ++ ms)
      end.
Proof.
  induction evs as [|e evs IH]; intros acc; cbn [Receiver.collect List.filter];
    [reflexivity|].
  rewrite IH. destruct (String.eqb (Receiver.Event e) eventType).
  - destruct (List.filter _ evs) as [|e' ms]; [reflexivity|].
    change (default [] (Some (default [] acc ++ [e])))
      with (default [] acc ++ [e]).
    now rewrite <- app_assoc.
  - reflexivity.
Qed.

(** X14. [/events] without a filter lists every stored event; with the
    filter [event=t] it lists exactly the stored events of type [t], in
    arrival order, and the count is the length of the listing; when no
    stored event has that type the listing is a nil slice, not an empty
    one. *)
Theorem handleEvents_listing {any : Type}
    (eventType : string) (s : Receiver.Server any) :
  Receiver.handleEvents "" s
  = (length (Receiver.events s), Some (Receiver.events s)) /\
  (eventType <> "" ->
   let ms := List.filter (fun e => String.eqb (Receiver.Event e) eventType)
                         (Receiver.events s) in
   Receiver.handleEvents eventType s
   = (length ms, match ms with [] => None | _ => Some ms end)).
Proof.
  split; [reflexivity|]. intros Hne ms. unfold Receiver.handleEvents.
  destruct (String.eqb_spec eventType "") as [E|_]; [contradiction|].
  cbn [negb]. rewrite collect_spec. fold ms.
  destruct ms; reflexivity.
Qed.

Lemma handleWebhook_outcomes_aux {any : Type} `{L : GoLib any}
    `{R : Receiver.RecvLib any}
    (method sig : string) (read : list byte + string) (now : Z)
    (s : Receiver.Server any) :
  let s' := fst (fst (Receiver.handleWebhook method sig read now s)) in
  let resp := snd (fst (Receiver.handleWebhook method sig read now s)) in
  (Receiver.code resp <> 200 /\ s' = s) \/
  (Receiver.code resp = 200 /\
   exists e, Receiver.events s' = Receiver.events s ++ [e]).
Proof.
  unfold Receiver.handleWebhook.
  destruct (negb (String.eqb method "POST")); [left; split; [discriminate|reflexivity]|].
  destruct read as [bd|err]; [|left; split; [discriminate|reflexivity]].
  destruct (negb (String.eqb (Receiver.secret s) ""));
    [destruct (Receiver.verifySignature s bd sig)|];
    destruct (Receiver.json_Unmarshal bd);
    cbn [fst snd Receiver.code Receiver.events Receiver.http_Error];
    first [ left; split; [discriminate|reflexivity]
          | right; split; [reflexivity|eexists; reflexivity] ].
Qed.

Lemma serve_events {any : Type} `{L : GoLib any} `{R : Receiver.RecvLib any}
    (reqs : list (string * string * (list byte + string) * Z)) :
  forall s : Receiver.Server any,
    length (Receiver.events (fst (Receiver.serve reqs s)))
    = (length (Receiver.events s)
       + length (List.filter (fun r => Z.eqb (Receiver.code r) 200)
                             (snd (Receiver.serve reqs s))))%nat.
Proof.
  induction reqs as [|[[[method sig] read] now] reqs IH]; intros s;
    cbn [Receiver.serve].
  - simpl. lia.
  - pose proof (handleWebhook_outcomes_aux method sig read now s) as Hh.
    destruct (Receiver.handleWebhook method sig read now s) as [[s1 resp] lg].
    specialize (IH s1).
    destruct (Receiver.serve reqs s1) as [s2 resps].
    cbn [fst snd List.filter] in *. rewrite IH.
    destruct Hh as [(Hc & Hs)|(Hc & e & He)].
    + rewrite Hs. destruct (Z.eqb_spec (Receiver.code resp) 200);
        [contradiction|reflexivity].
    + rewrite He, length_app, Hc. simpl. lia.
Qed.

(** X15. [/clear] and the counts.  [/clear] takes POST and DELETE only and
    answers anything else 405 without touching the store.  After a clear,
    however many requests [/webhook] then handles, the number of stored
    events that [/events] and [/health] report is the number of requests
    answered 200. *)
Theorem clear_then_count {any : Type} `{L : GoLib any}
    `{R : Receiver.RecvLib any}
    (method : string) (reqs : list (string * string * (list byte + string) * Z))
    (s : Receiver.Server any) :
  (method <> "POST" -> method <> "DELETE" ->
   fst (Receiver.handleClear method s)
   = (s, Receiver.mkResponse 405 ("Method not allowed" +:+ nl))) /\
  (method = "POST" \/ method = "DELETE" ->
   let cleared := fst (fst (Receiver.handleClear method s)) in
   let after := fst (Receiver.serve reqs cleared) in
   let n := length (List.filter (fun r => Z.eqb (Receiver.code r) 200)
                                (snd (Receiver.serve reqs cleared))) in
   cleared = Receiver.mkServer (Receiver.secret s) [] /\
   fst (Receiver.handleEvents "" after) = n /\
   Receiver.handleHealth after
   = Receiver.mkResponse 200
       ("{" +:+ dq +:+ "status" +:+ dq +:+ ": " +:+ dq +:+ "healthy" +:+ dq
          +:+ ", " +:+ dq +:+ "events_received" +:+ dq +:+ ": "
          +:+ pretty (Z.of_nat n) +:+ "}")).
Proof.
  split.
  - intros H1 H2. unfold Receiver.handleClear.
    destruct (String.eqb_spec method "POST"); [contradiction|].
    destruct (String.eqb_spec method "DELETE"); [contradiction|]. reflexivity.
  - intros Hm cleared after n.
    assert (Hc : cleared = Receiver.mkServer (Receiver.secret s) []).
    { unfold cleared, Receiver.handleClear.
      destruct Hm as [-> | ->]; reflexivity. }
    pose proof (serve_events reqs cleared) as Hn.
    fold after in Hn. fold n in Hn.
    replace (length (Receiver.events cleared)) with 0%nat in Hn
      by (rewrite Hc; reflexivity).
    cbn [Nat.add] in Hn.
    split_and!; [exact Hc| |].
    + unfold Receiver.handleEvents. cbn [String.eqb negb default fst].
      exact Hn.
    + unfold Receiver.handleHealth. now rewrite Hn.
Qed.

(** * Properties of the autoresponder trigger *)

Module ARProps.
Import Autoresponder.

Lemma query_spec (l : Z) (w : World) (c : Campaign) :
  c ∈ get_autoresponders_for_list l w
  <-> c ∈ campaigns w /\ Type' c = "autoresponder" /\ Status c = "running" /\
      (ID c, l) ∈ campaign_lists w.
Proof.
  unfold get_autoresponders_for_list.
  rewrite list_elem_of_In, in_flat_map. split.
  - intros (c' & Hc' & Hin). apply in_flat_map in Hin as ([a b] & Hcl & Hin).
    cbn [fst snd] in Hin.
    destruct (Z.eqb_spec a (ID c')) as [->|]; [|contradiction Hin].
    destruct (String.eqb_spec (Type' c') "autoresponder"); [|contradiction Hin].
    destruct (String.eqb_spec (Status c') "running"); [|contradiction Hin].
    destruct (Z.eqb_spec b l) as [->|]; [|contradiction Hin].
    destruct Hin as [->|[]].
    rewrite !list_elem_of_In. auto.
  - intros (Hc & Ht & Hs & Hcl). exists c. rewrite <- list_elem_of_In.
    split; [exact Hc|]. apply in_flat_map. exists (ID c, l).
    rewrite <- list_elem_of_In. split; [exact Hcl|].
    cbn [fst snd]. rewrite !Z.eqb_refl, Ht, Hs. cbn. now left.
Qed.

Lemma advances_same `{A : ARLib} (sub : Subscriber) (b : bool) (ls : list Z)
    (w w' : World) :
  campaigns w' = campaigns w -> campaign_lists w' = campaign_lists w ->
  history w' = history w -> sends w' = sends w ->
  advances sub b ls w w'.
Proof.
  intros H1 H2 H3 H4. unfold advances. rewrite H1, H2, H3, H4.
  split_and!; auto. exists []. rewrite app_nil_r.
  split_and!; auto. intros c s r H; inversion H.
Qed.

Lemma advances_trans `{A : ARLib} (sub : Subscriber) (b : bool) (ls : list Z)
    (w w1 w2 : World) :
  advances sub b ls w w1 -> advances sub b ls w1 w2 -> advances sub b ls w w2.
Proof.
  intros (C1 & L1 & H1 & n1 & S1 & P1 & Q1) (C2 & L2 & H2 & n2 & S2 & P2 & Q2).
  unfold advances.
  split_and!; [congruence|congruence|now transitivity (history w1)|].
  exists (n1 ++ n2). split_and!.
  - now rewrite S2, S1, app_assoc.
  - intros c s r Hin. apply elem_of_app in Hin as [Hin|Hin].
    + exact (P1 c s r Hin).
    + destruct (P2 c s r Hin) as (E1 & E2 & E3 & E4 & E5 & l & E6 & E7 & E8).
      rewrite C1 in E3. rewrite L1 in E7.
      split_and!; auto. exists l. split_and!; auto.
  - intros t Hin. destruct (Q2 t Hin) as [Hin1|(c & l & -> & Hl & Hs)].
    + destruct (Q1 t Hin1) as [?|(c & l & -> & Hl & Hs)]; [now left|].
      right. exists c, l. split_and!; auto. apply elem_of_app. now left.
    + right. exists c, l. split_and!; auto. apply elem_of_app. now right.
Qed.

Lemma advances_mono `{A : ARLib} (sub : Subscriber) (b : bool)
    (ls ls' : list Z) (w w' : World) :
  (forall l, l ∈ ls -> l ∈ ls') ->
  advances sub b ls w w' -> advances sub b ls' w w'.
Proof.
  intros Hsub (C1 & L1 & H1 & n1 & S1 & P1 & Q1).
  unfold advances. split_and!; auto. exists n1. split_and!; auto.
  - intros c s r Hin.
    destruct (P1 c s r Hin) as (E1 & E2 & E3 & E4 & E5 & l & E6 & E7 & E8).
    split_and!; auto. exists l. auto.
  - intros t Hin. destruct (Q1 t Hin) as [?|(c & l & -> & Hl & Hs)];
      [now left|]. right. exists c, l. auto.
Qed.

(** What one pass of the inner loop can do. *)
Lemma hook_campaign_shape `{A : ARLib} (sub : Subscriber) (l : Z)
    (b : bool) (w : World) (c : Campaign) :
  let w' := hook_campaign sub l b w c in
  campaigns w' = campaigns w /\ campaign_lists w' = campaign_lists w /\
  ((history w' = history w /\ sends w' = sends w) \/
   (ARTriggerOnConfirm c = b /\ ((ID c, sub_ID sub, l) ∉ history w) /\
    exists r,
      sends w' = sends w ++ [(c, sub, r)] /\
      (history w' = history w \/
       (r = None /\ history w' = {[ (ID c, sub_ID sub, l) ]} ∪ history w)))).
Proof.
  unfold hook_campaign.
  destruct (Bool.eqb_spec (ARTriggerOnConfirm c) b) as [Hb|Hb]; cbn [negb];
    [|cbn; auto].
  destruct w as [cs cls h fs cl lg sd].
  unfold HasReceivedAutoresponder, check_autoresponder_sent, outcome.
  destruct fs as [|[e1|] fs]; cbn [faults history]; try (cbn; now auto);
    (destruct (bool_decide_reflect ((ID c, sub_ID sub, l) ∈ h)) as [Hin|Hin];
     [cbn; now auto|]);
    unfold SendAutoresponder, outcome; cbn [faults].
  - cbn. split_and!; auto. right. split_and!; auto.
    eexists. split; [reflexivity|]. right. auto.
  - destruct fs as [|[e2|] fs].
    + cbn. split_and!; auto. right. split_and!; auto.
      eexists. split; [reflexivity|]. right. auto.
    + cbn. split_and!; auto. right. split_and!; auto.
      eexists. split; [reflexivity|]. left. auto.
    + cbn [fmap option_fmap option_map].
      unfold RecordAutoresponderSent, outcome; cbn [faults].
      destruct fs as [|[e3|] fs]; cbn; split_and!; auto; right;
        split_and!; auto; eexists; (split; [reflexivity|]);
        first [ left; reflexivity | right; split; reflexivity ].
Qed.

Lemma hook_campaign_advances `{A : ARLib} (sub : Subscriber) (l : Z)
    (b : bool) (w : World) (c : Campaign) :
  c ∈ campaigns w -> Type' c = "autoresponder" -> Status c = "running" ->
  (ID c, l) ∈ campaign_lists w ->
  advances sub b [l] w (hook_campaign sub l b w c).
Proof.
  intros Hc Ht Hs Hl.
  destruct (hook_campaign_shape sub l b w c)
    as (C & Lc & [[Hh Hsd]|(Hb & Hnin & r & Hsd & Hh)]).
  - now apply advances_same.
  - unfold advances. split_and!; auto.
    + destruct Hh as [->|[_ ->]]; [reflexivity|apply union_subseteq_r].
    + exists [(c, sub, r)]. split_and!; auto.
      * intros c' s r' H. apply list_elem_of_singleton in H.
        inversion H; subst. split_and!; auto. exists l.
        split_and!; auto. left.
      * intros t H. destruct Hh as [Hh|[-> Hh]]; rewrite Hh in H;
          [now left|].
        apply elem_of_union in H as [H|H]; [|now left].
        apply elem_of_singleton in H. subst t. right. exists c, l.
        split_and!; auto; left.
Qed.

Lemma outcome_frame (w : World) :
  campaigns (snd (outcome w)) = campaigns w /\
  campaign_lists (snd (outcome w)) = campaign_lists w /\
  history (snd (outcome w)) = history w /\
  sends (snd (outcome w)) = sends w.
Proof. unfold outcome. destruct (faults w); auto. Qed.

Lemma hook_list_advances `{A : ARLib} (sub : Subscriber) (b : bool)
    (w : World) (l : Z) :
  advances sub b [l] w (hook_list sub b w l).
Proof.
  unfold hook_list, GetAutorespondersForList.
  destruct (outcome_frame w) as (F1 & F2 & F3 & F4).
  destruct (outcome w) as [[err|] w1]; cbn [snd] in *.
  - now apply advances_same.
  - assert (Hw1 : advances sub b [l] w w1) by now apply advances_same.
    assert (Hq : forall c, c ∈ get_autoresponders_for_list l w1 ->
                           c ∈ campaigns w /\ Type' c = "autoresponder" /\
                           Status c = "running" /\ (ID c, l) ∈ campaign_lists w).
    { intros c Hc. apply query_spec in Hc. now rewrite F1, F2 in Hc. }
    revert Hq. generalize (get_autoresponders_for_list l w1). intros camps.
    revert Hw1. generalize w1. clear F1 F2 F3 F4.
    induction camps as [|c camps IH]; intros w2 Hw2 Hq; cbn [fold_left].
    + exact Hw2.
    + apply IH.
      * apply (advances_trans _ _ _ _ w2); [exact Hw2|].
        destruct Hw2 as (C & Lc & _).
        destruct (Hq c ltac:(left)) as (H1 & H2 & H3 & H4).
        apply hook_campaign_advances; auto; congruence.
      * intros c' Hc'. apply Hq. now right.
Qed.

Lemma hook_advances `{A : ARLib} (sub : Subscriber) (ls : list Z) (b : bool)
    (w : World) :
  fst (hook sub ls b w) = None /\ advances sub b ls w (snd (hook sub ls b w)).
Proof.
  unfold hook.
  destruct (negb (String.eqb (sub_Status sub) SubscriberStatusEnabled));
    cbn [fst snd]; (split; [reflexivity|]); [now apply advances_same|].
  assert (G : forall done w0 w1,
             advances sub b (done ++ ls) w0 w1 ->
             advances sub b (done ++ ls) w0
               (fold_left (hook_list sub b) ls w1)).
  { induction ls as [|l ls' IH]; intros done w0 w1 Hw; cbn [fold_left].
    - exact Hw.
    - replace (done ++ l :: ls') with ((done ++ [l]) ++ ls')
        by now rewrite <- app_assoc.
      apply IH. rewrite <- app_assoc. cbn [app].
      apply (advances_trans _ _ _ _ w1); [exact Hw|].
      apply (advances_mono _ _ [l]); [|apply hook_list_advances].
      intros l' Hl'. apply list_elem_of_singleton in Hl'. subst l'.
      apply elem_of_app. right. left. }
  apply (G [] w w). now apply advances_same.
Qed.

(** X16. The hook sends only what is due.  It never reports an error, and
    every call of [SendAutoresponder] it makes is for the given subscriber,
    whose status is enabled, and for a running autoresponder campaign of
    one of the given lists, whose trigger matches the kind of event and
    which [autoresponder_history] did not hold for that subscriber and
    list when the hook started. *)
Theorem hook_sends_only_due `{A : ARLib} (sub : Subscriber) (ls : list Z)
    (isConfirmation : bool) (w : World) :
  fst (hook sub ls isConfirmation w) = None /\
  exists new,
    sends (snd (hook sub ls isConfirmation w)) = sends w ++ new /\
    forall c s r,
      (c, s, r) ∈ new ->
      s = sub /\ sub_Status sub = SubscriberStatusEnabled /\
      ARTriggerOnConfirm c = isConfirmation /\
      c ∈ campaigns w /\ Type' c = "autoresponder" /\ Status c = "running" /\
      exists l, l ∈ ls /\ (ID c, l) ∈ campaign_lists w /\
                (ID c, sub_ID sub, l) ∉ history w.
Proof.
  destruct (hook_advances sub ls isConfirmation w)
    as (He & _ & _ & _ & new & Hs & P & _).
  split; [exact He|]. exists new. split; [exact Hs|].
  intros c s r Hin. destruct (P c s r Hin) as (E1 & E2 & E3 & E4 & E5 & E6).
  split_and!; auto.
  unfold hook in Hs.
  destruct (String.eqb_spec (sub_Status sub) SubscriberStatusEnabled)
    as [E|E]; [exact E|].
  cbn [negb snd] in Hs. exfalso.
  apply (f_equal length) in Hs. rewrite length_app in Hs.
  destruct new; [inversion Hin|simpl in Hs; lia].
Qed.

(** X17. The hook records only what it sent.  It leaves the campaign tables
    alone and removes nothing from [autoresponder_history]; every row it
    adds is for the given subscriber, one of the given lists and a campaign
    for which a call of [SendAutoresponder] made by this run succeeded. *)
Theorem hook_records_only_sent `{A : ARLib} (sub : Subscriber) (ls : list Z)
    (isConfirmation : bool) (w : World) :
  let w' := snd (hook sub ls isConfirmation w) in
  campaigns w' = campaigns w /\ campaign_lists w' = campaign_lists w /\
  history w ⊆ history w' /\
  forall t,
    t ∈ history w' -> t ∉ history w ->
    exists c l i,
      t = (ID c, sub_ID sub, l) /\ l ∈ ls /\
      sends w' !! i = Some (c, sub, None) /\ (length (sends w) <= i)%nat.
Proof.
  destruct (hook_advances sub ls isConfirmation w)
    as (_ & C & Lc & H & new & Hs & _ & Q).
  cbn zeta. split_and!; auto.
  intros t Hin Hnin. destruct (Q t Hin) as [?|(c & l & -> & Hl & Hc)];
    [contradiction|].
  apply list_elem_of_lookup in Hc as [i Hi].
  exists c, l, (length (sends w) + i)%nat. split_and!; auto; [|lia].
  rewrite Hs, lookup_app_r by lia.
  now replace (length (sends w) + i - length (sends w))%nat with i by lia.
Qed.

(** ** When no call fails *)

Lemma hook_campaign_nofault `{A : ARLib} (sub : Subscriber) (l : Z)
    (b : bool) (w : World) (c : Campaign) :
  faults w = [] ->
  let w' := hook_campaign sub l b w c in
  faults w' = [] /\ campaigns w' = campaigns w /\
  campaign_lists w' = campaign_lists w /\ clog w' = clog w /\ lo w' = lo w /\
  if Bool.eqb (ARTriggerOnConfirm c) b
     && negb (check_autoresponder_sent (ID c) (sub_ID sub) l w)
  then sends w' = sends w ++ [(c, sub, None)] /\
       history w' = {[ (ID c, sub_ID sub, l) ]} ∪ history w
  else w' = w.
Proof.
  destruct w as [cs cls h fs cl lg sd]. cbn [faults]. intros ->.
  unfold hook_campaign.
  destruct (Bool.eqb (ARTriggerOnConfirm c) b); cbn [negb andb];
    [|cbn; split_and!; reflexivity].
  unfold HasReceivedAutoresponder, outcome; cbn [faults].
  destruct (check_autoresponder_sent (ID c) (sub_ID sub) l
              (mkWorld cs cls h [] cl lg sd)); cbn; split_and!; reflexivity.
Qed.

Lemma fold_campaign_nofault `{A : ARLib} (sub : Subscriber) (l : Z)
    (b : bool) (camps : list Campaign) :
  forall w,
    faults w = [] ->
    let w' := fold_left (hook_campaign sub l b) camps w in
    faults w' = [] /\ campaigns w' = campaigns w /\
    campaign_lists w' = campaign_lists w /\ clog w' = clog w /\
    lo w' = lo w /\ history w ⊆ history w' /\
    (forall c, c ∈ camps -> ARTriggerOnConfirm c = b ->
               (ID c, sub_ID sub, l) ∈ history w') /\
    exists new,
      sends w' = sends w ++ new /\ Forall (fun x => snd x = None) new /\
      (length new + size (history w))%nat = size (history w').
Proof.
  induction camps as [|c camps IH]; intros w Hf; cbn [fold_left].
  - cbn zeta. split_and!; auto; [intros c H; inversion H|].
    exists []. now rewrite app_nil_r.
  - destruct (hook_campaign_nofault sub l b w c Hf)
      as (F1 & C1 & L1 & G1 & O1 & Hcase).
    destruct (IH _ F1) as (F2 & C2 & L2 & G2 & O2 & H2 & S2 & n2 & N2 & A2 & Z2).
    cbn zeta.
    assert (Hstep : history w ⊆ history (hook_campaign sub l b w c) /\
              (ARTriggerOnConfirm c = b ->
               (ID c, sub_ID sub, l) ∈ history (hook_campaign sub l b w c)) /\
              exists n1,
                sends (hook_campaign sub l b w c) = sends w ++ n1 /\
                Forall (fun x => snd x = None) n1 /\
                (length n1 + size (history w))%nat
                = size (history (hook_campaign sub l b w c))).
    { unfold check_autoresponder_sent in Hcase.
      destruct (Bool.eqb_spec (ARTriggerOnConfirm c) b) as [Hb|Hb];
        cbn [andb] in Hcase.
      - destruct (bool_decide_reflect ((ID c, sub_ID sub, l) ∈ history w))
          as [Hin|Hin]; cbn [negb] in Hcase.
        + rewrite Hcase. split_and!; auto. exists []. now rewrite app_nil_r.
        + destruct Hcase as [Hs Hh]. rewrite Hs, Hh.
          split_and!; [apply union_subseteq_r| |].
          * intros _. apply elem_of_union. left. now apply elem_of_singleton.
          * exists [(c, sub, None)]. split_and!; auto.
            rewrite size_union, size_singleton by
              (apply disjoint_singleton_l; exact Hin).
            reflexivity.
      - rewrite Hcase. split_and!; auto; [intros; contradiction|].
        exists []. now rewrite app_nil_r. }
    destruct Hstep as (Hs1 & Hs2 & n1 & N1 & A1 & Z1).
    split_and!; try congruence.
    + now transitivity (history (hook_campaign sub l b w c)).
    + intros c' Hc' Hb. apply elem_of_cons in Hc' as [->|Hc'].
      * apply H2. now apply Hs2.
      * now apply S2.
    + exists (n1 ++ n2). split_and!.
      * now rewrite N2, N1, app_assoc.
      * now apply Forall_app.
      * rewrite length_app. lia.
Qed.

Lemma fold_campaign_sat_id `{A : ARLib} (sub : Subscriber) (l : Z)
    (b : bool) (camps : list Campaign) (w : World) :
  faults w = [] ->
  (forall c, c ∈ camps -> ARTriggerOnConfirm c = b ->
             (ID c, sub_ID sub, l) ∈ history w) ->
  fold_left (hook_campaign sub l b) camps w = w.
Proof.
  intros Hf. induction camps as [|c camps IH]; intros Hsat; cbn [fold_left];
    [reflexivity|].
  replace (hook_campaign sub l b w c) with w.
  - apply IH. intros c' Hc'. apply Hsat. now right.
  - destruct (hook_campaign_nofault sub l b w c Hf) as (_ & _ & _ & _ & _ & Hc).
    unfold check_autoresponder_sent in Hc.
    destruct (Bool.eqb_spec (ARTriggerOnConfirm c) b) as [Hb|Hb];
      cbn [andb] in Hc; [|now symmetry].
    rewrite bool_decide_eq_true_2 in Hc by (apply Hsat; [left|exact Hb]).
    now symmetry.
Qed.

Lemma query_ext `{A : ARLib} (l : Z) (w w' : World) :
  campaigns w' = campaigns w -> campaign_lists w' = campaign_lists w ->
  get_autoresponders_for_list l w' = get_autoresponders_for_list l w.
Proof. unfold get_autoresponders_for_list. now intros -> ->. Qed.

Lemma hook_list_nofault_eq `{A : ARLib} (sub : Subscriber) (b : bool)
    (w : World) (l : Z) :
  faults w = [] ->
  hook_list sub b w l
  = fold_left (hook_campaign sub l b) (get_autoresponders_for_list l w) w.
Proof.
  destruct w as [cs cls h fs cl lg sd]. cbn [faults]. intros ->. reflexivity.
Qed.

Lemma fold_list_nofault `{A : ARLib} (sub : Subscriber) (b : bool)
    (ls : list Z) :
  forall w,
    faults w = [] ->
    let w' := fold_left (hook_list sub b) ls w in
    faults w' = [] /\ campaigns w' = campaigns w /\
    campaign_lists w' = campaign_lists w /\ clog w' = clog w /\
    lo w' = lo w /\ history w ⊆ history w' /\
    (forall l c, l ∈ ls -> c ∈ get_autoresponders_for_list l w ->
                 ARTriggerOnConfirm c = b ->
                 (ID c, sub_ID sub, l) ∈ history w') /\
    exists new,
      sends w' = sends w ++ new /\ Forall (fun x => snd x = None) new /\
      (length new + size (history w))%nat = size (history w').
Proof.
  induction ls as [|l ls IH]; intros w Hf; cbn [fold_left].
  - cbn zeta. split_and!; auto; [intros l c H; inversion H|].
    exists []. now rewrite app_nil_r.
  - rewrite (hook_list_nofault_eq sub b w l Hf).
    destruct (fold_campaign_nofault sub l b
                (get_autoresponders_for_list l w) w Hf)
      as (F1 & C1 & L1 & G1 & O1 & H1 & S1 & n1 & N1 & A1 & Z1).
    destruct (IH _ F1) as (F2 & C2 & L2 & G2 & O2 & H2 & S2 & n2 & N2 & A2 & Z2).
    cbn zeta. split_and!; try congruence.
    + etransitivity; eassumption.
    + intros l' c Hl' Hc Hb. apply elem_of_cons in Hl' as [->|Hl'].
      * apply H2. now apply S1.
      * apply (S2 l' c Hl'); [|exact Hb].
        now rewrite (query_ext l' w _ C1 L1).
    + exists (n1 ++ n2). split_and!.
      * now rewrite N2, N1, app_assoc.
      * now apply Forall_app.
      * rewrite length_app. lia.
Qed.

Lemma fold_list_sat_id `{A : ARLib} (sub : Subscriber) (b : bool)
    (ls : list Z) (w : World) :
  faults w = [] ->
  (forall l c, l ∈ ls -> c ∈ get_autoresponders_for_list l w ->
               ARTriggerOnConfirm c = b ->
               (ID c, sub_ID sub, l) ∈ history w) ->
  fold_left (hook_list sub b) ls w = w.
Proof.
  intros Hf. induction ls as [|l ls IH]; intros Hsat; cbn [fold_left];
    [reflexivity|].
  rewrite (hook_list_nofault_eq sub b w l Hf).
  rewrite fold_campaign_sat_id; auto.
  - apply IH. intros l' c Hl'. apply Hsat. now right.
  - intros c Hc. apply (Hsat l c); [left|exact Hc].
Qed.

(** X18. When no query and no send fails, one run of the hook does all
    there is to do: afterwards every running autoresponder of each given
    list whose trigger matches is in [autoresponder_history] for an enabled
    subscriber, nothing was logged, and running the hook again with the same
    arguments sends nothing and changes nothing. *)
Theorem hook_idempotent `{A : ARLib} (sub : Subscriber) (ls : list Z)
    (isConfirmation : bool) (w : World) :
  faults w = [] ->
  let w1 := snd (hook sub ls isConfirmation w) in
  hook sub ls isConfirmation w1 = (None, w1) /\
  lo w1 = lo w /\ clog w1 = clog w /\
  (sub_Status sub = SubscriberStatusEnabled ->
   forall l c, l ∈ ls -> c ∈ get_autoresponders_for_list l w ->
               ARTriggerOnConfirm c = isConfirmation ->
               (ID c, sub_ID sub, l) ∈ history w1).
Proof.
  intros Hf. unfold hook.
  destruct (String.eqb_spec (sub_Status sub) SubscriberStatusEnabled)
    as [E|E]; cbn [negb snd].
  - destruct (fold_list_nofault sub isConfirmation ls w Hf)
      as (F1 & C1 & L1 & G1 & O1 & H1 & S1 & _).
    split_and!; auto. f_equal.
    apply fold_list_sat_id; [exact F1|].
    intros l c Hl Hc Hb. apply (S1 l c Hl); [|exact Hb].
    now rewrite <- (query_ext l w _ C1 L1).
  - split_and!; auto. intros; contradiction.
Qed.

Lemma hook_idempotent_witness :
  let w1 := snd (hook demo_sub [1; 2; 1] false (demo_world [])) in
  hook demo_sub [1; 2; 1] false w1 = (None, w1) /\
  elements (history w1) = [(10, 7, 1); (10, 7, 2)].
Proof.
  intros w1.
  destruct (hook_idempotent (A := demo_lib) demo_sub [1; 2; 1] false
              (demo_world []) eq_refl) as (H & _).
  split; [exact H|]. vm_compute; reflexivity.
Defined.

(** X19. When no query and no send fails, the sends the hook makes all
    succeed and their number is the number of rows it adds to
    [autoresponder_history]: a campaign is not sent twice to the subscriber
    for the same list, even when a list id is given twice or the join
    returns the campaign more than once. *)
Theorem hook_one_send_per_row `{A : ARLib} (sub : Subscriber) (ls : list Z)
    (isConfirmation : bool) (w : World) :
  faults w = [] ->
  let w1 := snd (hook sub ls isConfirmation w) in
  exists new,
    sends w1 = sends w ++ new /\ Forall (fun x => snd x = None) new /\
    (length new + size (history w))%nat = size (history w1).
Proof.
  intros Hf. unfold hook.
  destruct (negb (String.eqb (sub_Status sub) SubscriberStatusEnabled));
    cbn [snd].
  - exists []. now rewrite app_nil_r.
  - now destruct (fold_list_nofault sub isConfirmation ls w Hf)
      as (_ & _ & _ & _ & _ & _ & _ & N).
Qed.

Lemma hook_one_send_per_row_witness :
  let w := demo_world [] in
  let w1 := snd (hook demo_sub [1; 2; 1] false w) in
  faults w = [] /\
  exists new,
    sends w1 = sends w ++ new /\ Forall (fun x => snd x = None) new /\
    (length new + size (history w))%nat = size (history w1).
Proof.
  split; [reflexivity|].
  exact (hook_one_send_per_row (A := demo_lib) demo_sub [1; 2; 1] false
           (demo_world []) eq_refl).
Defined.

(** X20. Recording and checking agree: after [RecordAutoresponderSent]
    succeeds for a campaign, subscriber and list, [HasReceivedAutoresponder]
    answers true for them when its query succeeds; the answer for any other
    triple is what it was; recording the same triple again leaves the
    table as it is ([ON CONFLICT ... DO NOTHING]); and the table grows by
    one row exactly when the triple was new. *)
Theorem record_then_check `{A : ARLib} (c s l : Z) (w : World) :
  forall w1,
    RecordAutoresponderSent c s l w = (None, w1) ->
    (forall w2 r, HasReceivedAutoresponder c s l w1 = (r, None, w2) ->
                  r = true) /\
    (forall c' s' l', (c', s', l') <> (c, s, l) ->
       check_autoresponder_sent c' s' l' w1
       = check_autoresponder_sent c' s' l' w) /\
    (forall w2, RecordAutoresponderSent c s l w1 = (None, w2) ->
                history w2 = history w1) /\
    size (history w1)
    = (if check_autoresponder_sent c s l w then size (history w)
       else S (size (history w))).
Proof.
  intros w1 H.
  assert (Hh : history w1 = {[ (c, s, l) ]} ∪ history w).
  { unfold RecordAutoresponderSent in H.
    destruct (outcome_frame w) as (_ & _ & F3 & _).
    destruct (outcome w) as [[err|] w0]; [discriminate|].
    inversion H; subst w1. cbn [snd] in F3. cbn. now rewrite F3. }
  split_and!.
  - intros w2 r Hr. unfold HasReceivedAutoresponder in Hr.
    destruct (outcome_frame w1) as (_ & _ & F3 & _).
    destruct (outcome w1) as [[err|] w0]; [discriminate|].
    inversion Hr; subst. cbn [snd] in F3.
    unfold check_autoresponder_sent. rewrite F3, Hh.
    apply bool_decide_eq_true_2, elem_of_union. left.
    now apply elem_of_singleton.
  - intros c' s' l' Hne. unfold check_autoresponder_sent.
    apply bool_decide_ext. rewrite Hh, elem_of_union, elem_of_singleton.
    tauto.
  - intros w2 H2. unfold RecordAutoresponderSent in H2.
    destruct (outcome_frame w1) as (_ & _ & F3 & _).
    destruct (outcome w1) as [[err|] w0]; [discriminate|].
    inversion H2; subst w2. cbn [snd] in F3. cbn. rewrite F3, Hh.
    apply subseteq_union_1_L, union_subseteq_l.
  - unfold check_autoresponder_sent. rewrite Hh.
    destruct (bool_decide_reflect ((c, s, l) ∈ history w)) as [Hin|Hin].
    + f_equal. now apply subseteq_union_1_L, singleton_subseteq_l.
    + rewrite size_union, size_singleton by
        (apply disjoint_singleton_l; exact Hin).
      reflexivity.
Qed.

Lemma record_then_check_witness :
  let w := demo_world [None; None] in
  let w1 := snd (RecordAutoresponderSent 10 7 1 w) in
  RecordAutoresponderSent 10 7 1 w = (None, w1) /\
  fst (fst (HasReceivedAutoresponder 10 7 1 w1)) = true /\
  size (history w1) = 1%nat.
Proof.
  cbn zeta.
  assert (H : RecordAutoresponderSent 10 7 1 (demo_world [None; None])
              = (None, snd (RecordAutoresponderSent 10 7 1
                              (demo_world [None; None]))))
    by (vm_compute; reflexivity).
  destruct (record_then_check (A := demo_lib) 10 7 1
              (demo_world [None; None]) _ H) as (R1 & _ & _ & R4).
  split_and!; [exact H| |exact R4].
  eapply R1. vm_compute. reflexivity.
Defined.

End ARProps.
